(** * lrmr: partitioners, rows and the worker task executor

    A shallow embedding of three Go packages of the repository:

      - [partitions]: the partitioners of [partitions/partitioner.go];
      - [lrdd]: the row helper [From] and the [Row] map with [Merge];
      - [worker]: the task executor ([TaskExecutor.Run] and [Abort]).

    Go values are modelled as follows.  An [int] is a [Z]; the conversion
    [uint64(x)] is written out as reduction modulo [2^64].  A Go [string]
    is a [string] (a sequence of bytes).  A [map[string]T] is a [gmap],
    a [map[string]struct{}] a [gset]; the nil map is kept apart from the
    empty one where the code can tell them apart.  A call that may panic
    returns a [result]. *)

From Stdlib Require Import ZArith String List Ascii.
From stdpp Require Import gmap strings list fin_maps pretty.

Set Warnings "-register-all".

Local Open Scope string_scope.
Local Open Scope list_scope.
Local Open Scope Z_scope.

(** ** Errors and panics *)

(** Go [error] values.  [errors_New] is [errors.New],
    [errors_Wrap] is [errors.Wrap] of pkg/errors, [runtime_Error] is a
    run-time panic of the Go runtime (which is an [error] as well) and
    [WrapRecover] is what [logger.WrapRecover] makes of a recovered
    panic value. *)
Inductive error : Type :=
| errors_New (msg : string)
| errors_Wrap (cause : error) (msg : string)
| runtime_Error (msg : string)
| WrapRecover (v : error).

#[global] Instance error_eq_dec : EqDecision error.
Proof. solve_decision. Defined.

(** What a call does: it returns, it panics with a value, or it never
    comes back (a receive on a channel that nobody closes). *)
Inductive result (A : Type) : Type :=
| Returns (a : A)
| Panics (v : error)
| Blocks.

Arguments Returns {A} a.
Arguments Panics {A} v.
Arguments Blocks {A}.

Definition divideError : error :=
  runtime_Error "runtime error: integer divide by zero".

Definition makesliceError : error :=
  runtime_Error "runtime error: makeslice: len out of range".

(** ** Machine integers and [strconv] *)

Definition MaxInt : Z := 2 ^ 63 - 1.
Definition MinInt : Z := - 2 ^ 63.

(** [uint64(x)] for an [int] [x]. *)
Definition uint64 (x : Z) : Z := x mod 2 ^ 64.

(** [strconv.Itoa]: the decimal rendering of an [int]. *)
Definition Itoa (i : Z) : string := pretty i.

(** [strconv.FormatUint(x, 10)] for a [uint64] [x]. *)
Definition FormatUint10 (x : Z) : string := pretty (Z.to_N x).

(** ** FNV-1a, as in [github.com/segmentio/fasthash/fnv1a] *)

Module fnv1a.

Definition offset64 : Z := 14695981039346656037.
Definition prime64 : Z := 1099511628211.

(** One round: [h = (h ^ uint64(b)) * prime64] on [uint64]. *)
Definition round (h : Z) (b : ascii) : Z :=
  (Z.lxor h (Z.of_N (N_of_ascii b)) * prime64) mod 2 ^ 64.

Fixpoint AddString64 (h : Z) (s : string) : Z :=
  match s with
  | EmptyString => h
  | String b s' => AddString64 (round h b) s'
  end.

Definition HashString64 (s : string) : Z := AddString64 offset64 s.

End fnv1a.

(** ** Package [partitions] *)

Module partitions.

(** Modelled from the spec: the [Partition] struct ([ID], [IsElastic],
    [AssignmentAffinity]) is declared in a file of the package that is
    not among the sources.  [AssignmentAffinity] is a Go map: [None] is
    the nil map. *)
Record Partition : Type := mkPartition {
  ID : string;
  IsElastic : bool;
  AssignmentAffinity : option (gmap string string)
}.

(** Modelled from the spec: the [lrdd.Row] that [partitioner.go] is
    compiled against has a [Key] field ([Key: string] of the data model);
    the [Row] that the sources of [lrdd] declare is a bare map, which has
    no fields.  Only [Key] is read here. *)
Record Row : Type := mkRow { Key : string }.

(** [Context] interface: [PartitionID() string]. *)
Record Context : Type := mkContext { PartitionID : string }.

Definition ErrNoOutput : error := errors_New "no output".

(** The dynamic types behind the [Partitioner] interface.

    The methods of [FiniteKeyPartitioner], [hashKeyPartitioner] and
    [ShuffledPartitioner] have pointer receivers: only the pointers are
    partitioners, and the first three constructors stand for them.  The
    methods of [PreservePartitioner], [SerializablePartitioner] and
    [masterAssigner] have value receivers (or are promoted from an
    embedded interface), so both the struct and a pointer to it are
    partitioners, and a type assertion tells the two apart:

      - [PreservePartitioner] is the pointer, which
        [NewPreservePartitioner] returns, [PreservePartitioner_value]
        the struct held by value;
      - [SerializablePartitioner p] is the struct held by value, which
        [WrapPartitioner] returns, [SerializablePartitioner_pointer p] a
        pointer to it;
      - [masterAssigner p] is the pointer, which
        [WithAssignmentToMaster] returns, [masterAssigner_value p] the
        struct held by value.  Its field [Partitioner] holds [p]; the
        field has the struct type [SerializablePartitioner], so
        [WithAssignmentToMaster] always puts a [SerializablePartitioner]
        there.

    [UserPartitioner] is an implementation of the interface from
    outside the package, given by its two methods.  Pointers are taken
    not to be nil. *)
Inductive Partitioner : Type :=
| FiniteKeyPartitioner (KeySet : gset string)
| hashKeyPartitioner
| ShuffledPartitioner
| PreservePartitioner
| SerializablePartitioner (p : Partitioner)
| masterAssigner (p : Partitioner)
| UserPartitioner
    (plan : Z -> result (list Partition))
    (determine : Context -> Row -> Z -> result (string * option error))
| PreservePartitioner_value
| SerializablePartitioner_pointer (p : Partitioner)
| masterAssigner_value (p : Partitioner).

Definition WrapPartitioner (p : Partitioner) : Partitioner :=
  SerializablePartitioner p.

(** [UnwrapPartitioner]: the type assertion is to the struct
    [SerializablePartitioner], which a pointer to one does not meet. *)
Definition UnwrapPartitioner (p : Partitioner) : Partitioner :=
  match p with
  | SerializablePartitioner sp => sp
  | _ => p
  end.

(** [PlanForNumberOf]: [make([]Partition, numExecutors)] and the loop
    that fills index [i].  [make] panics on a negative length; that it
    also gives up on a length too large to allocate is left out, no
    limit being fixed by the language. *)
Definition zeroPartition : Partition :=
  {| ID := ""; IsElastic := false; AssignmentAffinity := None |}.

Fixpoint PlanForNumberOf_loop (steps : nat) (i : Z) (pp : list Partition)
  : list Partition :=
  match steps with
  | O => pp
  | S steps' =>
      PlanForNumberOf_loop steps' (i + 1)
        (<[Z.to_nat i :=
             {| ID := Itoa i; IsElastic := true;
                AssignmentAffinity := None |}]> pp)
  end.

Definition PlanForNumberOf (numExecutors : Z) : result (list Partition) :=
  if decide (numExecutors < 0) then Panics makesliceError
  else Returns (PlanForNumberOf_loop (Z.to_nat numExecutors) 0
                  (replicate (Z.to_nat numExecutors) zeroPartition)).

(** [NewFiniteKeyPartitioner]: the loop [keySet[k] = struct{}{}]. *)
Definition NewKeySet (keys : list string) : gset string :=
  fold_left (fun keySet k => {[ k ]} ∪ keySet) keys ∅.

Definition NewFiniteKeyPartitioner (keys : list string) : Partitioner :=
  FiniteKeyPartitioner (NewKeySet keys).

Definition NewHashKeyPartitioner : Partitioner := hashKeyPartitioner.
Definition NewShuffledPartitioner : Partitioner := ShuffledPartitioner.
Definition NewPreservePartitioner : Partitioner := PreservePartitioner.

Definition WithAssignmentToMaster (p : Partitioner) : Partitioner :=
  masterAssigner (WrapPartitioner p).

(** [len(m)] of a Go map. *)
Definition len_map (m : option (gmap string string)) : nat :=
  match m with
  | None => O
  | Some m' => size m'
  end.

(** Body of the loop of [masterAssigner.PlanNext] at one partition. *)
Definition assignToMaster (p : Partition) : Partition :=
  let affinity :=
    if decide (len_map (AssignmentAffinity p) = O) then (∅ : gmap string string)
    else default ∅ (AssignmentAffinity p) in
  {| ID := ID p; IsElastic := IsElastic p;
     AssignmentAffinity := Some (<["Type" := "master"]> affinity) |}.

Fixpoint masterAssigner_loop (steps : nat) (i : nat) (planned : list Partition)
  : list Partition :=
  match steps with
  | O => planned
  | S steps' =>
      masterAssigner_loop steps' (S i)
        (match planned !! i with
         | Some p => <[i := assignToMaster p]> planned
         | None => planned
         end)
  end.

(** [PlanNext].  [order] is the order in which [range f.KeySet] yields
    the keys of a [FiniteKeyPartitioner] during this call (Go leaves it
    unspecified). *)
Fixpoint PlanNext (order : list string) (p : Partitioner) (numExecutors : Z)
  : result (list Partition) :=
  match p with
  | FiniteKeyPartitioner _ =>
      Returns (fold_left
                 (fun partitions key =>
                    partitions ++ [{| ID := key; IsElastic := false;
                                      AssignmentAffinity := None |}])
                 order [])
  | hashKeyPartitioner => PlanForNumberOf numExecutors
  | ShuffledPartitioner => PlanForNumberOf numExecutors
  | PreservePartitioner | PreservePartitioner_value =>
      PlanForNumberOf numExecutors
  | SerializablePartitioner p' | SerializablePartitioner_pointer p' =>
      PlanNext order p' numExecutors
  | masterAssigner p' | masterAssigner_value p' =>
      match PlanNext order p' numExecutors with
      | Returns planned =>
          Returns (masterAssigner_loop (length planned) O planned)
      | Panics v => Panics v
      | Blocks => Blocks
      end
  | UserPartitioner plan _ => plan numExecutors
  end.

(** [DeterminePartition].  [rnd] is the value that [rand.Int()] yields
    if the call asks for one; it is never negative. *)
Fixpoint DeterminePartition (p : Partitioner) (rnd : Z)
    (c : Context) (r : Row) (numOutputs : Z)
  : result (string * option error) :=
  match p with
  | FiniteKeyPartitioner KeySet =>
      if decide (Key r ∈ KeySet) then Returns (Key r, None)
      else Returns ("", Some ErrNoOutput)
  | hashKeyPartitioner =>
      if decide (uint64 numOutputs = 0) then Panics divideError
      else
        let slot := fnv1a.HashString64 (Key r) mod uint64 numOutputs in
        Returns (FormatUint10 slot, None)
  | ShuffledPartitioner =>
      if decide (numOutputs = 0) then Panics divideError
      else
        let slot := Z.rem rnd numOutputs in
        Returns (Itoa slot, None)
  | PreservePartitioner | PreservePartitioner_value =>
      Returns (PartitionID c, None)
  | SerializablePartitioner p' | SerializablePartitioner_pointer p' =>
      DeterminePartition p' rnd c r numOutputs
  | masterAssigner p' | masterAssigner_value p' =>
      DeterminePartition p' rnd c r numOutputs
  | UserPartitioner _ determine => determine c r numOutputs
  end.

(** [IsPreserved]: the type assertion to a pointer to
    [PreservePartitioner], after one [UnwrapPartitioner]; a
    [PreservePartitioner] held by value does not meet it. *)
Definition IsPreserved (p : Partitioner) : bool :=
  match UnwrapPartitioner p with
  | PreservePartitioner => true
  | _ => false
  end.

(** *** Vocabulary of the properties *)

(** The call handed back an error value. *)
Definition returns_error (res : result (string * option error)) : Prop :=
  match res with
  | Returns (_, Some _) => True
  | _ => False
  end.

(** How the plan of the wrapper relates to the plan of the wrapped
    partitioner: same length, and at every index the same ID and
    elasticity, the affinity being the old one (empty when nil) with
    ["Type"] set to ["master"]. *)
Definition master_of (planned out : list Partition) : Prop :=
  length out = length planned
  /\ forall (i : nat) (q : Partition),
       planned !! i = Some q ->
       exists q',
         out !! i = Some q'
         /\ ID q' = ID q
         /\ IsElastic q' = IsElastic q
         /\ AssignmentAffinity q' =
              Some (<["Type" := "master"]> (default ∅ (AssignmentAffinity q))).

(** The claim's words: [p] is the Preserve partitioner, or a wrapper
    (of either kind, at any depth) around it. *)
Fixpoint is_or_wraps_Preserve (p : Partitioner) : bool :=
  match p with
  | PreservePartitioner | PreservePartitioner_value => true
  | SerializablePartitioner p' | SerializablePartitioner_pointer p' =>
      is_or_wraps_Preserve p'
  | masterAssigner p' | masterAssigner_value p' => is_or_wraps_Preserve p'
  | _ => false
  end.

(** [p] is made of the partitioners of the package only, with no
    implementation of the interface from outside. *)
Fixpoint builtin (p : Partitioner) : Prop :=
  match p with
  | SerializablePartitioner p' | SerializablePartitioner_pointer p'
  | masterAssigner p' | masterAssigner_value p' => builtin p'
  | UserPartitioner _ _ => False
  | _ => True
  end.

(** [p] is a FiniteKey partitioner, wrapped or not. *)
Fixpoint holds_keys (p : Partitioner) : bool :=
  match p with
  | FiniteKeyPartitioner _ => true
  | SerializablePartitioner p' | SerializablePartitioner_pointer p'
  | masterAssigner p' | masterAssigner_value p' => holds_keys p'
  | _ => false
  end.

(** [order] is an order in which Go may range over the key set that
    [p] holds, when it holds one: every key once. *)
Fixpoint ranges_over (order : list string) (p : Partitioner) : Prop :=
  match p with
  | FiniteKeyPartitioner KeySet => order ≡ₚ elements KeySet
  | SerializablePartitioner p' | SerializablePartitioner_pointer p'
  | masterAssigner p' | masterAssigner_value p' => ranges_over order p'
  | _ => True
  end.

End partitions.

(** ** Package [lrdd] *)

Module lrdd.

(** *** The part of [reflect] that [From] uses *)

Inductive Kind : Type :=
| Invalid | Bool | Int | String | Ptr | Interface | Slice | Array | Map.

#[global] Instance Kind_eq_dec : EqDecision Kind.
Proof. solve_decision. Defined.

(** Static Go types.  [TRowPtr] is the pointer-to-[Row] type. *)
Inductive GoType : Type :=
| TBool
| TInt
| TString
| TInterface
| TRowPtr
| TSlice (elem : GoType)
| TArray (n : nat) (elem : GoType)
| TMap (key elem : GoType).

#[global] Instance GoType_eq_dec : EqDecision GoType.
Proof. solve_decision. Defined.

(** [rowType]: the reflected type of a nil pointer to [Row]. *)
Definition rowType : GoType := TRowPtr.

Definition Type_Kind (t : GoType) : Kind :=
  match t with
  | TBool => Bool
  | TInt => Int
  | TString => String
  | TInterface => Interface
  | TRowPtr => Ptr
  | TSlice _ => Slice
  | TArray _ _ => Array
  | TMap _ _ => Map
  end.

(** [Type.Elem()], which panics on a type that has no element type. *)
Definition Type_Elem (t : GoType) : option GoType :=
  match t with
  | TSlice e | TArray _ e | TMap _ e => Some e
  | _ => None
  end.

(** [Type.String()]. *)
Fixpoint Type_String (t : GoType) : string :=
  match t with
  | TBool => "bool"
  | TInt => "int"
  | TString => "string"
  | TInterface => "interface {}"
  | TRowPtr => "*lrdd.Row"
  | TSlice e => "[]" +:+ Type_String e
  | TArray n e => "[" +:+ pretty n +:+ "]" +:+ Type_String e
  | TMap k e => "map[" +:+ Type_String k +:+ "]" +:+ Type_String e
  end.

Section From.

(** Pointers to rows.  [Value] and [KeyValue], the two constructors
    that [From] calls, are declared in a file of the package that is
    not among the sources; they are taken as they come. *)
Variable RowPtr : Type.

(** What an [interface{}] holds: nil, or a value with its dynamic
    type.  A slice, an array and a map carry their element types; the
    entries of a map are listed in the order in which [MapRange]
    yields them. *)
Inductive any : Type :=
| nil_any
| bool_any (b : bool)
| int_any (i : Z)
| string_any (s : string)
| rowptr_any (r : RowPtr)
| slice_any (elem : GoType) (items : list any)
| array_any (elem : GoType) (items : list any)
| map_any (key elem : GoType) (entries : list (any * any)).

Variable Value : any -> RowPtr.
Variable KeyValue : string -> any -> RowPtr.

(** [reflect.TypeOf]: the dynamic type, none for the nil interface. *)
Definition TypeOf (v : any) : option GoType :=
  match v with
  | nil_any => None
  | bool_any _ => Some TBool
  | int_any _ => Some TInt
  | string_any _ => Some TString
  | rowptr_any _ => Some TRowPtr
  | slice_any e _ => Some (TSlice e)
  | array_any e items => Some (TArray (length items) e)
  | map_any k e _ => Some (TMap k e)
  end.

(** A [reflect.Value]: a type (none for the zero Value) and the data.
    The type is the static type of the place the data was read from:
    an element read from a [[]interface{}] or a [map[string]interface{}]
    has type [interface{}], whatever it holds. *)
Record reflect_Value : Type := mkValue {
  Value_Type : option GoType;
  Value_data : any
}.

Definition ValueOf (v : any) : reflect_Value :=
  {| Value_Type := TypeOf v; Value_data := v |}.

Definition Value_Kind (v : reflect_Value) : Kind :=
  match Value_Type v with
  | None => Invalid
  | Some t => Type_Kind t
  end.

(** [v.Interface()]. *)
Definition Value_Interface (v : reflect_Value) : any := Value_data v.

(** [v.String()]: the string itself for a value of kind [String],
    the type between angle brackets for any other. *)
Definition Value_String (v : reflect_Value) : string :=
  match Value_Type v, Value_data v with
  | None, _ => "<invalid Value>"
  | Some TString, string_any s => s
  | Some t, _ => "<" +:+ Type_String t +:+ " Value>"
  end.

(** [v.Index(0)], ..., [v.Index(v.Len()-1)] of a slice or an array. *)
Definition Value_Indexes (v : reflect_Value) : list reflect_Value :=
  match Value_data v with
  | slice_any e items | array_any e items =>
      map (fun item => {| Value_Type := Some e; Value_data := item |}) items
  | _ => []
  end.

(** The pairs [(iter.Key(), iter.Value())] of [v.MapRange()]. *)
Definition Value_MapRange (v : reflect_Value)
  : list (reflect_Value * reflect_Value) :=
  match Value_data v with
  | map_any kt et entries =>
      map (fun kv : any * any =>
             ({| Value_Type := Some kt; Value_data := kv.1 |},
              {| Value_Type := Some et; Value_data := kv.2 |}))
          entries
  | _ => []
  end.

(** The type assertion [values.([]*Row)]. *)
Definition as_RowPtr (v : any) : option RowPtr :=
  match v with
  | rowptr_any r => Some r
  | _ => None
  end.

Definition assert_RowSlice (values : any) : result (list RowPtr) :=
  match values with
  | slice_any TRowPtr items => Returns (omap as_RowPtr items)
  | _ => Panics (runtime_Error "interface conversion: not a []*lrdd.Row")
  end.

(** *** [From] *)

Definition From_map_entry (rows : list RowPtr)
    (kv : reflect_Value * reflect_Value) : list RowPtr :=
  let k := Value_String kv.1 in
  let v := kv.2 in
  if decide (Value_Kind v = Array \/ Value_Kind v = Slice) then
    fold_left (fun rows item => rows ++ [KeyValue k (Value_Interface item)])
              (Value_Indexes v) rows
  else rows ++ [KeyValue k (Value_Interface v)].

Definition From (values : any) : result (list RowPtr) :=
  let inputVal := ValueOf values in
  match Value_Kind inputVal with
  | Slice | Array =>
      if decide (Value_Type inputVal ≫= Type_Elem = Some rowType)
      then assert_RowSlice values
      else Returns (fold_left
                      (fun rows item => rows ++ [Value (Value_Interface item)])
                      (Value_Indexes inputVal) [])
  | Map => Returns (fold_left From_map_entry (Value_MapRange inputVal) [])
  | _ => Returns [Value values]
  end.

(** The claim's words on a keyed mapping: one row per entry under
    the key of the entry, but one row per element, all under that
    key, for an entry that holds a sequence. *)
Definition claimed_rows (entries : list (string * any)) : list RowPtr :=
  flat_map
    (fun kv : string * any =>
       match kv.2 with
       | slice_any _ items | array_any _ items => KeyValue kv.1 <$> items
       | v => [KeyValue kv.1 v]
       end)
    entries.

(** The mapping of ["a"] to the sequence 1, 2 and of ["b"] to 3.  Its
    entries hold a slice and an [int], so the Go value is a
    [map[string]interface{}].  Both orders of [MapRange] are given. *)
Definition example_entries : list (string * any) :=
  [("a", slice_any TInt [int_any 1; int_any 2]); ("b", int_any 3)].

Definition example_mapping : any :=
  map_any TString TInterface
    [(string_any "a", slice_any TInt [int_any 1; int_any 2]);
     (string_any "b", int_any 3)].

Definition example_mapping_swapped : any :=
  map_any TString TInterface
    [(string_any "b", int_any 3);
     (string_any "a", slice_any TInt [int_any 1; int_any 2])].

End From.

Arguments claimed_rows {RowPtr} KeyValue entries.
Arguments nil_any {RowPtr}.
Arguments bool_any {RowPtr} b.
Arguments int_any {RowPtr} i.
Arguments string_any {RowPtr} s.
Arguments rowptr_any {RowPtr} r.
Arguments slice_any {RowPtr} elem items.
Arguments array_any {RowPtr} elem items.
Arguments map_any {RowPtr} key elem entries.
Arguments From {RowPtr} Value KeyValue values.
Arguments From_map_entry {RowPtr} KeyValue rows kv.

(** *** [Row] and [Row.Merge]

    [type Row map[string]interface{}].  A [Row] is a reference to a map
    object (or nil); the map objects live in a [heap], so that what a
    call allocates and what it writes can be told apart. *)
Section Row.

(** The contents of an [interface{}] slot, and the nil interface that
    indexing yields for an absent key. *)
Variable V : Type.
Variable zero : V.

Definition Row : Type := option positive.

Abbreviation heap := (gmap positive (gmap string V)).

(** [r] is nil or refers to a map of [h]. *)
Definition Row_in (h : heap) (r : Row) : Prop :=
  match r with
  | None => True
  | Some l => is_Some (h !! l)
  end.

(** The entries of [r]; the nil map has none. *)
Definition entries (h : heap) (r : Row) : gmap string V :=
  match r with
  | None => ∅
  | Some l => default ∅ (h !! l)
  end.

(** [r[k]]. *)
Definition index (h : heap) (r : Row) (k : string) : V :=
  default zero (entries h r !! k).

(** [o[k] = v] on an allocated map [o]. *)
Definition assign (h : heap) (o : positive) (k : string) (v : V) : heap :=
  alter (fun m => <[k := v]> m) o h.

(** [make(Row)]. *)
Definition make_Row (h : heap) : heap * positive :=
  let l := fresh (dom h) in (<[l := ∅]> h, l).

(** [for k := range src { o[k] = src[k] }], the keys coming in the
    order [keys]. *)
Fixpoint Merge_range (keys : list string) (src : Row) (o : positive)
    (h : heap) : heap :=
  match keys with
  | [] => h
  | k :: keys' => Merge_range keys' src o (assign h o k (index h src k))
  end.

Definition Merge (order_r order_a : list string) (h : heap) (r a : Row)
  : heap * Row :=
  let '(h0, o) := make_Row h in
  let h1 := Merge_range order_r r o h0 in
  let h2 := Merge_range order_a a o h1 in
  (h2, Some o).

(** [res], the heap and the row that a call on the heap [h] returned,
    is a row made by the call with the entries [m]: it is not nil, it
    lies where nothing was allocated in [h], and the maps of [h] are as
    they were. *)
Definition fresh_row_with (h : heap) (res : heap * Row) (m : gmap string V)
  : Prop :=
  exists o : positive,
    res.2 = Some o
    /\ h !! o = None
    /\ (forall l, l <> o -> res.1 !! l = h !! l)
    /\ entries res.1 res.2 = m.

End Row.

(** A heap with two rows that share the key ["y"], and an order in
    which the keys of a row of that heap can be ranged over. *)
Definition sample_heap : gmap positive (gmap string Z) :=
  {[ 1%positive := {[ "x" := 1; "y" := 2 ]};
     2%positive := {[ "y" := 3 ]} ]}.

Definition sample_order (r : Row) : list string :=
  elements (dom (entries Z sample_heap r)).

(** *** Sample rows and orders for the examples *)

(** Modelled from the spec: a row made by [Value] or [KeyValue], as its
    key (empty for [Value]) and the value it holds under the default
    field name.  The constructors themselves are declared outside the
    sources. *)
Inductive KeyedRow : Type :=
| keyed_row (key : string) (val : any KeyedRow).

Definition sample_Value (v : any KeyedRow) : KeyedRow := keyed_row "" v.
Definition sample_KeyValue (k : string) (v : any KeyedRow) : KeyedRow :=
  keyed_row k v.
Definition sample_int_entries : list (any KeyedRow * any KeyedRow) :=
  [(int_any 1, string_any "one"); (int_any 2, string_any "two")].

(** The keys of a row of a heap in the order of [elements]: one of the
    orders in which Go may range over them. *)
Definition sorted_keys (h : gmap positive (gmap string Z)) (r : Row)
  : list string := elements (dom (entries Z h r)).

End lrdd.

(** ** Package [worker]: the task executor *)

Module worker.

Section TaskExecutor.

(** Rows are only handed on by the executor. *)
Variable Row : Type.

(** What the executor does to its collaborators, in order.
    [EvFinish] is the send on [finishChan]: [Run] has come to it, and a
    [WaitForFinish] that is waiting receives.  Logging is left out. *)
Inductive Event : Type :=
| EvApply (rows : list Row)
| EvTeardown
| EvClose
| EvReportSuccess
| EvReportFailure (err : error)
| EvFinish.

(** How the collaborators of one executor behave during one run:
    the batches that arrive on [Input.C] and whether the channel is
    closed after them, the outcome of every call the executor makes,
    and whether somebody calls [WaitForFinish] and so receives from
    [finishChan], which is not buffered.  A call that may be made more
    than once is given its outcome by the number of earlier calls. *)
Record Collaborators : Type := mkCollaborators {
  Input_C : list (list Row);
  Input_closed : bool;
  runner_Apply : nat -> list Row -> result (option error);
  runner_Teardown : result (option error);
  Output_Close : nat -> result (option error);
  reporter_ReportSuccess : result (option error);
  reporter_ReportFailure : nat -> error -> result (option error);
  finishChan_receiver : bool
}.

Variable w : Collaborators.

(** A computation threads the trace of events through and ends like
    a call does. *)
Definition Exec (A : Type) : Type :=
  list Event -> result A * list Event.

#[local] Instance Exec_ret : MRet Exec :=
  fun A a tr => (Returns a, tr).

#[local] Instance Exec_bind : MBind Exec :=
  fun A B f m tr =>
    match m tr with
    | (Returns a, tr') => f a tr'
    | (Panics v, tr') => (Panics v, tr')
    | (Blocks, tr') => (Blocks, tr')
    end.

Definition is_apply (ev : Event) : bool :=
  match ev with EvApply _ => true | _ => false end.
Definition is_close (ev : Event) : bool :=
  match ev with EvClose => true | _ => false end.
Definition is_failure (ev : Event) : bool :=
  match ev with EvReportFailure _ => true | _ => false end.

Definition calls (kind : Event -> bool) (tr : list Event) : nat :=
  length (List.filter kind tr).

(** A call: the event is recorded, the outcome comes from [w]. *)
Definition call {A : Type} (ev : Event)
    (outcome : list Event -> result A) : Exec A :=
  fun tr => (outcome tr, tr ++ [ev]).

Definition do_Apply (rows : list Row) : Exec (option error) :=
  call (EvApply rows) (fun tr => runner_Apply w (calls is_apply tr) rows).
Definition do_Teardown : Exec (option error) :=
  call EvTeardown (fun _ => runner_Teardown w).
Definition do_Close : Exec (option error) :=
  call EvClose (fun tr => Output_Close w (calls is_close tr)).
Definition do_ReportSuccess : Exec (option error) :=
  call EvReportSuccess (fun _ => reporter_ReportSuccess w).
Definition do_ReportFailure (err : error) : Exec (option error) :=
  call (EvReportFailure err)
       (fun tr => reporter_ReportFailure w (calls is_failure tr) err).
(** [e.finishChan <- true]: the send goes through when a
    [WaitForFinish] receives, and waits for ever when nobody does. *)
Definition send_finishChan : Exec unit :=
  call EvFinish
       (fun _ => if finishChan_receiver w then Returns tt else Blocks).

(** A receive on [Input.C] when nothing is left and nobody closes. *)
Definition block {A : Type} : Exec A := fun tr => (Blocks, tr).

Definition Abort (err : error) : Exec unit :=
  reportErr ← do_ReportFailure err;
  _ ← do_Close;
  mret tt.

(** [for rows := range e.Input.C].  The loop yields [true] when the
    channel is closed and control goes on after the loop, [false]
    when [Run] returns from inside it. *)
Fixpoint Run_drain (batches : list (list Row)) : Exec bool :=
  match batches with
  | [] => if Input_closed w then mret true else block
  | rows :: batches' =>
      err ← do_Apply rows;
      match err with
      | Some e => Abort e;; mret false
      | None => Run_drain batches'
      end
  end.

Definition Run_body : Exec unit :=
  drained ← Run_drain (Input_C w);
  if (drained : bool) then
    err ← do_Teardown;
    match err with
    | Some e => Abort (errors_Wrap e "teardown stage")
    | None =>
        err ← do_Close;
        match err with
        | Some e => Abort (errors_Wrap e "close output")
        | None => mret tt
        end;;
        err ← do_ReportSuccess;
        match err with
        | Some e => Abort (errors_Wrap e "report successful task")
        | None => send_finishChan
        end
    end
  else mret tt.

(** [defer e.AbortOnPanic()]. *)
Definition AbortOnPanic (body : Exec unit) : Exec unit :=
  fun tr =>
    match body tr with
    | (Panics v, tr') => Abort (WrapRecover v) tr'
    | other => other
    end.

Definition Run : Exec unit := AbortOnPanic Run_body.

(** The events of one run of a fresh executor. *)
Definition Run_trace : list Event := (Run []).2.

(** [WaitForFinish], when called, returns when [Run] sends on
    [finishChan]. *)
Definition WaitForFinish_returns : Prop := EvFinish ∈ Run_trace.

(** The run went through [Abort]: a failure was reported. *)
Definition aborted : Prop := exists err, EvReportFailure err ∈ Run_trace.

(** The events that the drain loop can produce. *)
Definition drain_event (ev : Event) : Prop :=
  match ev with
  | EvApply _ | EvReportFailure _ | EvClose => True
  | _ => False
  end.

End TaskExecutor.

Arguments EvApply {Row} rows.
Arguments EvTeardown {Row}.
Arguments EvClose {Row}.
Arguments EvReportSuccess {Row}.
Arguments EvReportFailure {Row} err.
Arguments EvFinish {Row}.
Arguments Run_trace {Row} w.
Arguments WaitForFinish_returns {Row} w.
Arguments aborted {Row} w.
Arguments drain_event {Row} ev.

(** Two runs in which [Output.Close()] returns an error (every call of
    it, as an idempotent [Close] does): one batch of two rows arrives,
    [Apply] and [Teardown] succeed, and the reporter accepts the success
    report, or refuses it.  Somebody waits in [WaitForFinish]. *)
Definition closeErr : error := errors_New "flush failed".

Definition close_fails : Collaborators unit :=
  {| Input_C := [[tt; tt]];
     Input_closed := true;
     runner_Apply := fun _ _ => Returns None;
     runner_Teardown := Returns None;
     Output_Close := fun _ => Returns (Some closeErr);
     reporter_ReportSuccess := Returns None;
     reporter_ReportFailure := fun _ _ => Returns None;
     finishChan_receiver := true |}.

Definition close_and_report_fail : Collaborators unit :=
  {| Input_C := [[tt; tt]];
     Input_closed := true;
     runner_Apply := fun _ _ => Returns None;
     runner_Teardown := Returns None;
     Output_Close := fun _ => Returns (Some closeErr);
     reporter_ReportSuccess := Returns (Some (errors_New "etcd unavailable"));
     reporter_ReportFailure := fun _ _ => Returns None;
     finishChan_receiver := true |}.

(** Runs for the examples: the batches, whether the input is closed
    after them, the outcome of the [n]-th [Apply], the outcomes of
    [Teardown], of every [Output.Close()] and of [ReportSuccess], and
    whether somebody waits in [WaitForFinish]; [ReportFailure] returns
    nil. *)
Definition scripted (batches : list (list unit)) (closed : bool)
    (apply : nat -> result (option error))
    (teardown close success : result (option error)) (waited : bool)
  : Collaborators unit :=
  {| Input_C := batches;
     Input_closed := closed;
     runner_Apply := fun n _ => apply n;
     runner_Teardown := teardown;
     Output_Close := fun _ => close;
     reporter_ReportSuccess := success;
     reporter_ReportFailure := fun _ _ => Returns None;
     finishChan_receiver := waited |}.

Definition three_batches : list (list unit) := [[tt]; [tt; tt]; [tt]].

Definition nil_error : result (option error) := Returns None.

Definition second_apply (outcome : result (option error)) (n : nat)
  : result (option error) :=
  match n with
  | 1%nat => outcome
  | _ => Returns None
  end.

Definition all_well : Collaborators unit :=
  scripted three_batches true (fun _ => nil_error) nil_error nil_error nil_error
    true.

Definition nobody_waits : Collaborators unit :=
  scripted three_batches true (fun _ => nil_error) nil_error nil_error nil_error
    false.

Definition report_refused : Collaborators unit :=
  scripted three_batches true (fun _ => nil_error) nil_error nil_error
    (Returns (Some (errors_New "etcd unavailable"))) true.

Definition teardown_fails : Collaborators unit :=
  scripted three_batches true (fun _ => nil_error)
    (Returns (Some (errors_New "flush state"))) nil_error nil_error true.

Definition apply_fails : Collaborators unit :=
  scripted three_batches true
    (second_apply (Returns (Some (errors_New "bad row"))))
    nil_error nil_error nil_error true.

Definition apply_panics : Collaborators unit :=
  scripted three_batches true
    (second_apply (Panics (runtime_Error "index out of range")))
    nil_error nil_error nil_error true.

Definition input_open : Collaborators unit :=
  scripted three_batches false (fun _ => nil_error) nil_error nil_error nil_error
    true.

End worker.

(** * Properties *)

(** ** Sanity checks of the models of the imported libraries *)

Example fnv_empty : fnv1a.HashString64 "" = 0xcbf29ce484222325.
Proof. reflexivity. Qed.

Example fnv_a : fnv1a.HashString64 "a" = 0xaf63dc4c8601ec8c.
Proof. vm_compute. reflexivity. Qed.

Example fnv_foobar : fnv1a.HashString64 "foobar" = 0x85944171f73967e8.
Proof. vm_compute. reflexivity. Qed.

Example Itoa_12 : Itoa 12 = "12".
Proof. vm_compute. reflexivity. Qed.

Example plan3 :
  partitions.PlanForNumberOf 3 =
  Returns [partitions.mkPartition "0" true None;
           partitions.mkPartition "1" true None;
           partitions.mkPartition "2" true None].
Proof. vm_compute. reflexivity. Qed.

(** ** Loops over lists *)

(** A loop that appends one element per step builds the mapped list. *)
Lemma append_loop {A B : Type} (f : A -> B) (l : list A) :
  forall acc : list B,
    fold_left (fun acc x => acc ++ [f x]) l acc = acc ++ (f <$> l).
Proof.
  induction l as [|x l IH]; intros acc; simpl.
  - by rewrite app_nil_r.
  - rewrite IH, <- app_assoc. reflexivity.
Qed.

Lemma fold_left_ext {A B : Type} (f g : A -> B -> A) (l : list B) :
  (forall a b, f a b = g a b) ->
  forall a : A, fold_left f l a = fold_left g l a.
Proof.
  intros Hfg. induction l as [|b l IH]; intros a; simpl; [reflexivity|].
  by rewrite Hfg, IH.
Qed.

(** ** Partitioners *)

Module partitions_proofs.
Import partitions.

(** *** Loops as list operations *)

Lemma PlanForNumberOf_loop_lookup (steps : nat) :
  forall (i : Z) (pp : list Partition) (j : nat),
    0 <= i ->
    (Z.to_nat i + steps <= length pp)%nat ->
    PlanForNumberOf_loop steps i pp !! j =
    if decide (Z.to_nat i <= j < Z.to_nat i + steps)%nat
    then Some (mkPartition (Itoa (Z.of_nat j)) true None)
    else pp !! j.
Proof.
  induction steps as [|steps IH]; intros i pp j Hi Hlen; simpl.
  - case_decide; [lia | reflexivity].
  - rewrite IH by (rewrite ?length_insert; lia).
    replace (Z.to_nat (i + 1)) with (S (Z.to_nat i)) by lia.
    destruct (decide (j = Z.to_nat i)) as [->|Hne].
    + rewrite list_lookup_insert_eq by lia.
      rewrite Z2Nat.id by lia.
      repeat case_decide; try lia; reflexivity.
    + rewrite list_lookup_insert_ne by lia.
      repeat case_decide; try lia; reflexivity.
Qed.

Lemma PlanForNumberOf_nonneg (n : Z) :
  0 <= n ->
  PlanForNumberOf n =
  Returns ((fun i => mkPartition (Itoa i) true None) <$> seqZ 0 n).
Proof.
  intros Hn. unfold PlanForNumberOf.
  case_decide; [lia|]. f_equal.
  apply list_eq; intros j.
  rewrite PlanForNumberOf_loop_lookup
    by (rewrite ?length_replicate; simpl; lia).
  rewrite list_lookup_fmap. simpl.
  destruct (decide (j < Z.to_nat n)%nat) as [Hj|Hj].
  - rewrite lookup_seqZ_lt by lia. simpl.
    case_decide; [|lia]. do 2 f_equal.
  - rewrite lookup_seqZ_ge by lia. simpl.
    case_decide; [lia|].
    apply lookup_replicate_None. lia.
Qed.

Lemma PlanForNumberOf_negative (n : Z) :
  n < 0 -> PlanForNumberOf n = Panics makesliceError.
Proof. intros Hn. unfold PlanForNumberOf. case_decide; [reflexivity|lia]. Qed.

Lemma masterAssigner_loop_lookup (steps : nat) :
  forall (i : nat) (planned : list Partition) (j : nat),
    masterAssigner_loop steps i planned !! j =
    if decide (i <= j < i + steps)%nat
    then assignToMaster <$> planned !! j
    else planned !! j.
Proof.
  induction steps as [|steps IH]; intros i planned j; simpl.
  - case_decide; [lia | reflexivity].
  - rewrite IH.
    destruct (decide (j = i)) as [->|Hne].
    + case_decide; [lia|]. case_decide; [|lia].
      destruct (planned !! i) as [p|] eqn:Hp; simpl.
      * apply list_lookup_insert_eq. by eapply lookup_lt_Some.
      * by rewrite Hp.
    + assert (Hsame :
        match planned !! i with
        | Some p => <[i:=assignToMaster p]> planned
        | None => planned
        end !! j = planned !! j).
      { destruct (planned !! i); [|reflexivity].
        by apply list_lookup_insert_ne. }
      rewrite Hsame.
      repeat case_decide; try lia; reflexivity.
Qed.

Lemma masterAssigner_loop_all (planned : list Partition) :
  masterAssigner_loop (length planned) 0 planned = assignToMaster <$> planned.
Proof.
  apply list_eq; intros j.
  rewrite masterAssigner_loop_lookup, list_lookup_fmap.
  case_decide; [reflexivity|].
  rewrite lookup_ge_None_2 by lia. reflexivity.
Qed.

(** What the loop body leaves in [AssignmentAffinity]: the old entries
    (none when the map was nil) with ["Type"] set. *)
Lemma assignToMaster_affinity (p : Partition) :
  AssignmentAffinity (assignToMaster p) =
  Some (<["Type" := "master"]> (default ∅ (AssignmentAffinity p))).
Proof.
  unfold assignToMaster; simpl. case_decide as Hlen; [|reflexivity].
  destruct (AssignmentAffinity p) as [m|]; simpl in *; [|reflexivity].
  apply map_size_empty_inv in Hlen. by rewrite Hlen.
Qed.

Lemma elem_of_NewKeySet (keys : list string) (k : string) :
  k ∈ NewKeySet keys <-> k ∈ keys.
Proof.
  unfold NewKeySet.
  assert (Hgen : forall acc : gset string,
    k ∈ fold_left (fun keySet k => {[ k ]} ∪ keySet) keys acc
    <-> k ∈ keys \/ k ∈ acc).
  { induction keys as [|x keys IH]; intros acc; simpl.
    - rewrite elem_of_nil. tauto.
    - rewrite IH, elem_of_union, elem_of_singleton, elem_of_cons. tauto. }
  rewrite Hgen, elem_of_empty. tauto.
Qed.

Lemma Itoa_inj : Inj (=) (=) Itoa.
Proof. unfold Itoa. apply _. Qed.

(** *** HashKey *)

(** The slot computed by [hashKeyPartitioner] is a valid index. *)
Lemma hashKey_slot_range (key : string) (numOutputs : Z) :
  0 < numOutputs ->
  0 <= fnv1a.HashString64 key mod numOutputs < numOutputs.
Proof. intros Hn. apply Z.mod_pos_bound. lia. Qed.

Lemma uint64_small (x : Z) : 0 <= x <= MaxInt -> uint64 x = x.
Proof.
  unfold uint64, MaxInt. intros Hx. apply Z.mod_small. lia.
Qed.

(** C3.  For the HashKey partitioner, [PlanNext n] returns the [n]
    elastic partitions whose IDs are the decimal renderings of
    [0], ..., [n-1], in that order, and for every row and every
    [numOutputs > 0] (an [int], so at most [MaxInt])
    [DeterminePartition] returns, with no error, the decimal rendering
    of the FNV-1a 64-bit hash of the row's key modulo [numOutputs]. *)
Theorem hashKey_spec (n numOutputs rnd : Z) (order : list string)
    (c : Context) (r : Row) :
  0 <= n ->
  0 < numOutputs <= MaxInt ->
  PlanNext order NewHashKeyPartitioner n =
    Returns ((fun i => mkPartition (Itoa i) true None) <$> seqZ 0 n)
  /\ DeterminePartition NewHashKeyPartitioner rnd c r numOutputs =
    Returns (FormatUint10 (fnv1a.HashString64 (Key r) mod numOutputs), None).
Proof.
  intros Hn Hout. split.
  - simpl. by apply PlanForNumberOf_nonneg.
  - simpl. rewrite uint64_small by lia.
    case_decide; [lia | reflexivity].
Qed.

Lemma hashKey_spec_witness :
  PlanNext [] NewHashKeyPartitioner 2 =
    Returns [mkPartition "0" true None; mkPartition "1" true None]
  /\ DeterminePartition NewHashKeyPartitioner 0 (mkContext "3") (mkRow "a") 4 =
    Returns ("0", None).
Proof.
  exact (hashKey_spec 2 4 0 [] (mkContext "3") (mkRow "a")
           ltac:(lia) ltac:(unfold MaxInt; lia)).
Defined.

(** The plan has [n] partitions with pairwise different IDs. *)
Lemma hashKey_plan_length (n : Z) (order : list string) (pp : list Partition) :
  0 <= n ->
  PlanNext order NewHashKeyPartitioner n = Returns pp ->
  length pp = Z.to_nat n /\ NoDup (ID <$> pp).
Proof.
  intros Hn Hpp. simpl in Hpp.
  rewrite PlanForNumberOf_nonneg in Hpp by done.
  injection Hpp as <-. split.
  - by rewrite length_fmap, length_seqZ.
  - rewrite <- list_fmap_compose.
    apply NoDup_fmap_2; [|apply NoDup_seqZ].
    intros i j Hij. simpl in Hij. by apply Itoa_inj.
Qed.

Lemma FormatUint10_Itoa (x : Z) : 0 <= x -> FormatUint10 x = Itoa x.
Proof. intros Hx. unfold FormatUint10, Itoa. by destruct x. Qed.

(** X1.  With as many outputs as planned partitions, the HashKey
    partitioner sends every row to a partition of the plan. *)
Lemma hashKey_routes_to_plan (n rnd : Z) (order : list string)
    (c : Context) (r : Row) :
  0 < n <= MaxInt ->
  exists (pp : list Partition) (id : string),
    PlanNext order NewHashKeyPartitioner n = Returns pp
    /\ DeterminePartition NewHashKeyPartitioner rnd c r n = Returns (id, None)
    /\ id ∈ (ID <$> pp).
Proof.
  intros Hn.
  destruct (hashKey_slot_range (Key r) n) as [Hlo Hhi]; [lia|].
  eexists _, _. split; [|split].
  - simpl. apply PlanForNumberOf_nonneg. lia.
  - simpl. rewrite uint64_small by lia. case_decide; [lia|reflexivity].
  - rewrite FormatUint10_Itoa by done.
    rewrite <- list_fmap_compose. apply list_elem_of_fmap.
    eexists. split; [reflexivity|]. apply elem_of_seqZ. lia.
Qed.

(** *** numOutputs = 0 *)

(** C2, amended.  With [numOutputs = 0] the HashKey and the Shuffled
    partitioner panic with the run-time error of an integer division
    by zero, and the Preserve partitioner returns the partition ID of
    the context with no error; none of the three returns an error
    value. *)
Theorem zero_outputs_behaviour (rnd : Z) (c : Context) (r : Row) :
  DeterminePartition NewHashKeyPartitioner rnd c r 0 = Panics divideError
  /\ DeterminePartition NewShuffledPartitioner rnd c r 0 = Panics divideError
  /\ DeterminePartition NewPreservePartitioner rnd c r 0 =
     Returns (PartitionID c, None).
Proof. repeat split. Qed.

(** C2 as stated fails: at [numOutputs = 0] none of the three
    non-Finite partitioners returns an error value. *)
Lemma zero_outputs_no_error_value :
  ~ returns_error
      (DeterminePartition NewHashKeyPartitioner 7 (mkContext "1") (mkRow "a") 0)
  /\ ~ returns_error
      (DeterminePartition NewShuffledPartitioner 7 (mkContext "1") (mkRow "a") 0)
  /\ ~ returns_error
      (DeterminePartition NewPreservePartitioner 7 (mkContext "1") (mkRow "a") 0).
Proof. repeat split; intros []. Qed.

(** *** FiniteKey *)

(** C4.  For the FiniteKey partitioner built from [keys], whatever
    [numExecutors] is and in whatever order the key set is ranged
    over, [PlanNext] returns one non-elastic partition per distinct
    key, its ID being the key; [DeterminePartition] returns
    [(row.Key, nil)] when the key of the row is one of [keys] and the
    NoOutput error otherwise, so that an ID returned without error is
    one of [keys]. *)
Theorem finiteKey_spec (keys order : list string)
    (numExecutors rnd numOutputs : Z) (c : Context) (r : Row) :
  order ≡ₚ elements (NewKeySet keys) ->
  (PlanNext order (NewFiniteKeyPartitioner keys) numExecutors =
     Returns ((fun key => mkPartition key false None) <$> order)
   /\ NoDup order
   /\ (forall key, key ∈ order <-> key ∈ keys))
  /\ DeterminePartition (NewFiniteKeyPartitioner keys) rnd c r numOutputs =
     (if decide (Key r ∈ keys) then Returns (Key r, None)
      else Returns ("", Some ErrNoOutput))
  /\ (forall id,
       DeterminePartition (NewFiniteKeyPartitioner keys) rnd c r numOutputs =
         Returns (id, None) ->
       id ∈ keys).
Proof.
  intros Horder.
  assert (Hdet :
    DeterminePartition (NewFiniteKeyPartitioner keys) rnd c r numOutputs =
    if decide (Key r ∈ keys) then Returns (Key r, None)
    else Returns ("", Some ErrNoOutput)).
  { simpl. repeat case_decide; try reflexivity;
      exfalso; rewrite elem_of_NewKeySet in *; tauto. }
  split; [split; [|split]|split].
  - simpl. by rewrite append_loop.
  - rewrite Horder. apply NoDup_elements.
  - intros key. rewrite Horder, elem_of_elements. apply elem_of_NewKeySet.
  - exact Hdet.
  - intros id. rewrite Hdet. case_decide; intros Heq; [|discriminate].
    injection Heq as <-. assumption.
Qed.

Lemma finiteKey_spec_witness :
  (PlanNext ["y"; "x"] (NewFiniteKeyPartitioner ["x"; "y"; "x"]) 5 =
     Returns [mkPartition "y" false None; mkPartition "x" false None]
   /\ NoDup ["y"; "x"]
   /\ (forall key, key ∈ ["y"; "x"] <-> key ∈ ["x"; "y"; "x"]))
  /\ DeterminePartition (NewFiniteKeyPartitioner ["x"; "y"; "x"]) 0
       (mkContext "0") (mkRow "z") 4 =
     (if decide ("z" ∈ ["x"; "y"; "x"]) then Returns ("z", None)
      else Returns ("", Some ErrNoOutput))
  /\ (forall id,
       DeterminePartition (NewFiniteKeyPartitioner ["x"; "y"; "x"]) 0
         (mkContext "0") (mkRow "z") 4 = Returns (id, None) ->
       id ∈ ["x"; "y"; "x"]).
Proof.
  apply (finiteKey_spec ["x"; "y"; "x"] ["y"; "x"] 5 0 4
           (mkContext "0") (mkRow "z")).
  apply NoDup_Permutation.
  - repeat constructor; rewrite ?elem_of_cons, ?elem_of_nil;
      intros H; decompose [or] H; discriminate || assumption.
  - apply NoDup_elements.
  - intros k. rewrite elem_of_elements, elem_of_NewKeySet.
    rewrite !elem_of_cons, !elem_of_nil. tauto.
Defined.

(** *** MasterAffinity *)

(** C5.  For any partitioner [p], [DeterminePartition] of
    [WithAssignmentToMaster p] is that of [p] on every input, and
    [PlanNext] of the wrapper ends as [PlanNext] of [p] does: when [p]
    returns a plan the wrapper returns the same partitions, with the
    same IDs and elasticity, whose affinity is the old one (created
    when absent) with ["Type"] set to ["master"]. *)
Theorem masterAffinity_frame (p : Partitioner) (order : list string)
    (rnd numOutputs numExecutors : Z) (c : Context) (r : Row) :
  DeterminePartition (WithAssignmentToMaster p) rnd c r numOutputs =
    DeterminePartition p rnd c r numOutputs
  /\ match PlanNext order p numExecutors with
     | Returns planned =>
         exists out,
           PlanNext order (WithAssignmentToMaster p) numExecutors = Returns out
           /\ master_of planned out
     | Panics v =>
         PlanNext order (WithAssignmentToMaster p) numExecutors = Panics v
     | Blocks =>
         PlanNext order (WithAssignmentToMaster p) numExecutors = Blocks
     end.
Proof.
  split; [reflexivity|]. simpl.
  destruct (PlanNext order p numExecutors) as [planned|v|]; try reflexivity.
  exists (assignToMaster <$> planned). split.
  - by rewrite masterAssigner_loop_all.
  - split; [apply length_fmap|].
    intros i q Hq. exists (assignToMaster q).
    rewrite list_lookup_fmap, Hq. simpl.
    repeat split. apply assignToMaster_affinity.
Qed.

(** Entries of the affinity other than ["Type"] are the old ones. *)
Lemma master_of_other_keys (planned out : list Partition) (i : nat)
    (q q' : Partition) (m' : gmap string string) (k : string) :
  master_of planned out ->
  planned !! i = Some q ->
  out !! i = Some q' ->
  AssignmentAffinity q' = Some m' ->
  m' !! "Type" = Some "master"
  /\ (k <> "Type" -> m' !! k = AssignmentAffinity q ≫= (fun m => m !! k)).
Proof.
  intros [_ Hall] Hq Hq' Hm'.
  destruct (Hall i q Hq) as (q'' & Hq'' & _ & _ & Haff).
  rewrite Hq' in Hq''. injection Hq'' as <-.
  rewrite Hm' in Haff. injection Haff as ->. split.
  - apply lookup_insert_eq.
  - intros Hk. rewrite lookup_insert_ne by done.
    destruct (AssignmentAffinity q); reflexivity.
Qed.

Example masterAffinity_on_hashKey :
  PlanNext [] (WithAssignmentToMaster NewHashKeyPartitioner) 2 =
  Returns [mkPartition "0" true (Some {["Type" := "master"]});
           mkPartition "1" true (Some {["Type" := "master"]})].
Proof. vm_compute. reflexivity. Qed.

(** *** IsPreserved *)

(** C6 as stated fails: the MasterAffinity wrapper around Preserve
    wraps Preserve, and [IsPreserved] answers [false] for it. *)
Lemma IsPreserved_misses_master :
  is_or_wraps_Preserve (WithAssignmentToMaster NewPreservePartitioner) = true
  /\ IsPreserved (WithAssignmentToMaster NewPreservePartitioner) = false.
Proof. split; reflexivity. Qed.

(** C6, amended.  [IsPreserved p] is [true] exactly when [p] is the
    Preserve partitioner as [NewPreservePartitioner] returns it (a
    pointer) or the serialization wrapper as [WrapPartitioner] returns
    it (a struct) directly around that, and [false] for every other
    partitioner, the value and pointer forms that the two type
    assertions do not meet included. *)
Theorem IsPreserved_spec (p : Partitioner) :
  IsPreserved p = true <->
  p = NewPreservePartitioner \/ p = WrapPartitioner NewPreservePartitioner.
Proof.
  unfold IsPreserved, WrapPartitioner, NewPreservePartitioner. split.
  - destruct p as [ | | | |p'|p'| | |p'|p']; simpl; try discriminate; auto.
    destruct p'; simpl; try discriminate; auto.
  - intros [->| ->]; reflexivity.
Qed.

(** A serialization wrapper nested twice is not looked through either. *)
Example IsPreserved_nested_wrapper :
  IsPreserved (WrapPartitioner (WrapPartitioner NewPreservePartitioner)) = false.
Proof. reflexivity. Qed.

(** Nor is a [PreservePartitioner] held by value a pointer to one, or a
    pointer to a serialization wrapper a serialization wrapper: both
    are partitioners, and [IsPreserved] answers [false] for them as for
    the value form of the MasterAffinity wrapper. *)
Lemma IsPreserved_other_forms :
  IsPreserved PreservePartitioner_value = false
  /\ IsPreserved (WrapPartitioner PreservePartitioner_value) = false
  /\ IsPreserved (SerializablePartitioner_pointer NewPreservePartitioner) = false
  /\ IsPreserved (masterAssigner_value (WrapPartitioner NewPreservePartitioner)) =
     false.
Proof. repeat split. Qed.

(** *** Further properties of the partitioners *)

Lemma hashKey_routes_to_plan_witness :
  exists (pp : list Partition) (id : string),
    PlanNext [] NewHashKeyPartitioner 4 = Returns pp
    /\ DeterminePartition NewHashKeyPartitioner 0 (mkContext "0") (mkRow "a") 4 =
       Returns (id, None)
    /\ id ∈ (ID <$> pp).
Proof.
  apply (hashKey_routes_to_plan 4 0 [] (mkContext "0") (mkRow "a")).
  unfold MaxInt. lia.
Defined.

(** X2.  With as many outputs as planned partitions and a random value
    that is not negative, the Shuffled partitioner returns, with no
    error, the decimal rendering of a slot in [0, numOutputs), which is
    the ID of a partition of the plan. *)
Theorem shuffled_routes_to_plan (n rnd : Z) (order : list string)
    (c : Context) (r : Row) :
  0 < n ->
  0 <= rnd ->
  exists (pp : list Partition) (slot : Z),
    PlanNext order NewShuffledPartitioner n = Returns pp
    /\ DeterminePartition NewShuffledPartitioner rnd c r n =
       Returns (Itoa slot, None)
    /\ slot = rnd mod n
    /\ 0 <= slot < n
    /\ Itoa slot ∈ (ID <$> pp).
Proof.
  intros Hn Hrnd.
  assert (Hslot : 0 <= rnd mod n < n) by (apply Z.mod_pos_bound; lia).
  eexists _, (rnd mod n). split; [|split; [|split; [|split]]].
  - simpl. apply PlanForNumberOf_nonneg. lia.
  - simpl. case_decide; [lia|]. by rewrite Z.rem_mod_nonneg by lia.
  - reflexivity.
  - exact Hslot.
  - rewrite <- list_fmap_compose. apply list_elem_of_fmap.
    eexists. split; [reflexivity|]. apply elem_of_seqZ. lia.
Qed.

Lemma shuffled_routes_to_plan_witness :
  exists (pp : list Partition) (slot : Z),
    PlanNext [] NewShuffledPartitioner 4 = Returns pp
    /\ DeterminePartition NewShuffledPartitioner 10 (mkContext "0") (mkRow "a") 4 =
       Returns (Itoa slot, None)
    /\ slot = 10 mod 4
    /\ 0 <= slot < 4
    /\ Itoa slot ∈ (ID <$> pp).
Proof.
  apply (shuffled_routes_to_plan 4 10 [] (mkContext "0") (mkRow "a")); lia.
Defined.

Lemma assignToMaster_ID (planned : list Partition) :
  ID <$> (assignToMaster <$> planned) = ID <$> planned.
Proof. rewrite <- list_fmap_compose. reflexivity. Qed.

Lemma PlanForNumberOf_IDs_unique (n : Z) (pp : list Partition) :
  PlanForNumberOf n = Returns pp ->
  length pp = Z.to_nat n /\ NoDup (ID <$> pp).
Proof.
  intros Hpp.
  assert (Hn : 0 <= n).
  { unfold PlanForNumberOf in Hpp. case_decide; [discriminate|lia]. }
  rewrite PlanForNumberOf_nonneg in Hpp by done.
  injection Hpp as <-. split.
  - by rewrite length_fmap, length_seqZ.
  - rewrite <- list_fmap_compose.
    apply NoDup_fmap_2; [|apply NoDup_seqZ].
    intros i j Hij. simpl in Hij. by apply Itoa_inj.
Qed.

(** X3.  Whatever partitioner of the package plans, wrapped or not, the
    IDs of the partitions it returns are pairwise different. *)
Theorem plan_IDs_unique (p : Partitioner) (order : list string) (n : Z)
    (pp : list Partition) :
  builtin p ->
  ranges_over order p ->
  PlanNext order p n = Returns pp ->
  NoDup (ID <$> pp).
Proof.
  revert pp.
  induction p as [KeySet| | | |p' IH|p' IH|plan determine| |p' IH|p' IH];
    intros pp Hbuiltin Horder Hplan; simpl in *.
  - injection Hplan as <-. rewrite append_loop. simpl.
    assert (Hids : forall l : list string,
      ID <$> ((fun key => mkPartition key false None) <$> l) = l).
    { induction l as [|k l IHl]; [reflexivity|].
      rewrite !fmap_cons, IHl. reflexivity. }
    rewrite Hids, Horder. apply NoDup_elements.
  - by apply (PlanForNumberOf_IDs_unique n).
  - by apply (PlanForNumberOf_IDs_unique n).
  - by apply (PlanForNumberOf_IDs_unique n).
  - by apply IH.
  - destruct (PlanNext order p' n) as [planned|v|]; try discriminate.
    injection Hplan as <-.
    rewrite masterAssigner_loop_all, assignToMaster_ID. by apply IH.
  - destruct Hbuiltin.
  - by apply (PlanForNumberOf_IDs_unique n).
  - by apply IH.
  - destruct (PlanNext order p' n) as [planned|v|]; try discriminate.
    injection Hplan as <-.
    rewrite masterAssigner_loop_all, assignToMaster_ID. by apply IH.
Qed.

Lemma plan_IDs_unique_witness :
  NoDup (ID <$> [mkPartition "y" false (Some {["Type" := "master"]});
                 mkPartition "x" false (Some {["Type" := "master"]})]).
Proof.
  apply (plan_IDs_unique
           (WithAssignmentToMaster (NewFiniteKeyPartitioner ["x"; "y"; "x"]))
           ["y"; "x"] 5).
  - exact I.
  - simpl. apply NoDup_Permutation.
    + repeat constructor; rewrite ?elem_of_cons, ?elem_of_nil;
        intros H; decompose [or] H; discriminate || assumption.
    + apply NoDup_elements.
    + intros k. rewrite elem_of_elements, elem_of_NewKeySet.
      rewrite !elem_of_cons, !elem_of_nil. tauto.
  - vm_compute. reflexivity.
Defined.

(** X4.  A negative count is not rejected by [DeterminePartition].
    The HashKey partitioner converts a negative [numOutputs] to
    [2^64 + numOutputs] and returns the hash modulo that number; the
    Shuffled partitioner returns a slot in [0, -numOutputs).  Neither
    panics nor returns an error. *)
Theorem negative_outputs_accepted (n rnd : Z) (c : Context) (r : Row) :
  MinInt <= n < 0 ->
  0 <= rnd ->
  DeterminePartition NewHashKeyPartitioner rnd c r n =
    Returns (FormatUint10 (fnv1a.HashString64 (Key r) mod (2 ^ 64 + n)), None)
  /\ DeterminePartition NewShuffledPartitioner rnd c r n =
    Returns (Itoa (Z.rem rnd n), None)
  /\ 0 <= Z.rem rnd n < - n.
Proof.
  intros Hn Hrnd. unfold MinInt in Hn.
  assert (Hwrap : uint64 n = 2 ^ 64 + n).
  { unfold uint64. symmetry. apply (Z.mod_unique n (2 ^ 64) (-1)); lia. }
  split; [|split].
  - simpl. rewrite Hwrap. case_decide; [lia|reflexivity].
  - simpl. case_decide; [lia|reflexivity].
  - replace n with (- (- n)) at 1 2 by lia.
    rewrite Z.rem_opp_r by lia. apply Z.rem_bound_pos; lia.
Qed.

Lemma negative_outputs_accepted_witness :
  DeterminePartition NewHashKeyPartitioner 10 (mkContext "0") (mkRow "a") (-1) =
    Returns (FormatUint10 (fnv1a.HashString64 "a" mod (2 ^ 64 + -1)), None)
  /\ DeterminePartition NewShuffledPartitioner 10 (mkContext "0") (mkRow "a") (-1) =
    Returns (Itoa (Z.rem 10 (-1)), None)
  /\ 0 <= Z.rem 10 (-1) < - -1.
Proof.
  apply (negative_outputs_accepted (-1) 10 (mkContext "0") (mkRow "a")).
  - unfold MinInt. lia.
  - lia.
Defined.

Lemma assignToMaster_idemp (q : Partition) :
  assignToMaster (assignToMaster q) = assignToMaster q.
Proof.
  unfold assignToMaster at 1. rewrite assignToMaster_affinity. simpl.
  rewrite decide_False.
  - rewrite insert_insert_eq. unfold assignToMaster. simpl.
    f_equal. f_equal. case_decide as Hlen; [|reflexivity].
    destruct (AssignmentAffinity q) as [m|]; simpl in *; [|reflexivity].
    apply map_size_empty_inv in Hlen. by rewrite Hlen.
  - apply map_size_non_empty_iff, insert_non_empty.
Qed.

(** X5.  Assigning to master twice is assigning once: the plan of
    [WithAssignmentToMaster (WithAssignmentToMaster p)] is the plan of
    [WithAssignmentToMaster p], for every partitioner [p]. *)
Theorem WithAssignmentToMaster_idemp (p : Partitioner) (order : list string)
    (n : Z) :
  PlanNext order (WithAssignmentToMaster (WithAssignmentToMaster p)) n =
  PlanNext order (WithAssignmentToMaster p) n.
Proof.
  simpl. destruct (PlanNext order p n) as [planned|v|]; try reflexivity.
  rewrite !masterAssigner_loop_all. f_equal.
  rewrite <- list_fmap_compose. apply list_fmap_ext.
  intros i q _. apply assignToMaster_idemp.
Qed.

Lemma remove_dups_shorter (keys : list string) :
  (length (remove_dups keys) <= length keys)%nat.
Proof.
  induction keys as [|k keys IH]; simpl; [lia|].
  destruct (decide_rel elem_of k keys); simpl; lia.
Qed.

(** X6.  The plan of a FiniteKey partitioner has as many partitions as
    there are distinct keys: never more than the keys it was built from,
    exactly as many when no key is repeated, and none at all for no key.
    *)
Theorem finiteKey_plan_size (keys order : list string) (n : Z)
    (pp : list Partition) :
  order ≡ₚ elements (NewKeySet keys) ->
  PlanNext order (NewFiniteKeyPartitioner keys) n = Returns pp ->
  length pp = size (NewKeySet keys)
  /\ length pp = length (remove_dups keys)
  /\ (length pp <= length keys)%nat
  /\ (keys = [] -> pp = []).
Proof.
  intros Horder Hplan. simpl in Hplan. rewrite append_loop in Hplan.
  injection Hplan as <-. cbn [app].
  assert (Hlen : length ((fun key => mkPartition key false None) <$> order) =
                 length (elements (NewKeySet keys))).
  { rewrite length_fmap. by apply Permutation_length. }
  assert (Hsize : length (elements (NewKeySet keys)) =
                  length (remove_dups keys)).
  { replace (NewKeySet keys) with (list_to_set (remove_dups keys) : gset string).
    - apply (size_list_to_set (C:=gset string)), NoDup_remove_dups.
    - apply set_eq. intros k.
      by rewrite elem_of_NewKeySet, elem_of_list_to_set, elem_of_remove_dups. }
  rewrite Hlen.
  split; [reflexivity|]. split; [exact Hsize|]. split.
  - rewrite Hsize. apply remove_dups_shorter.
  - intros ->. apply Permutation_nil_r in Horder. by rewrite Horder.
Qed.

Lemma finiteKey_plan_size_witness :
  length [mkPartition "y" false None; mkPartition "x" false None] =
    size (NewKeySet ["x"; "y"; "x"])
  /\ length [mkPartition "y" false None; mkPartition "x" false None] =
    length (remove_dups ["x"; "y"; "x"])
  /\ (length [mkPartition "y" false None; mkPartition "x" false None] <=
      length ["x"; "y"; "x"])%nat
  /\ (["x"; "y"; "x"] = [] ->
      [mkPartition "y" false None; mkPartition "x" false None] = []).
Proof.
  apply (finiteKey_plan_size ["x"; "y"; "x"] ["y"; "x"] 7).
  - apply NoDup_Permutation.
    + repeat constructor; rewrite ?elem_of_cons, ?elem_of_nil;
        intros H; decompose [or] H; discriminate || assumption.
    + apply NoDup_elements.
    + intros k. rewrite elem_of_elements, elem_of_NewKeySet.
      rewrite !elem_of_cons, !elem_of_nil. tauto.
  - reflexivity.
Defined.

(** X7.  [IsPreserved] is sound: a partitioner for which it answers
    [true] sends every row to the partition of the context, whatever the
    row and the number of outputs, and plans as [PlanForNumberOf]
    does. *)
Theorem IsPreserved_sound (p : Partitioner) (order : list string)
    (rnd numOutputs numExecutors : Z) (c : Context) (r : Row) :
  IsPreserved p = true ->
  DeterminePartition p rnd c r numOutputs = Returns (PartitionID c, None)
  /\ PlanNext order p numExecutors = PlanForNumberOf numExecutors.
Proof.
  unfold IsPreserved.
  destruct p as [ | | | |p'|p'| | |p'|p']; simpl; try discriminate; auto.
  destruct p'; simpl; try discriminate; auto.
Qed.

Lemma IsPreserved_sound_witness :
  DeterminePartition (WrapPartitioner NewPreservePartitioner) 3
    (mkContext "7") (mkRow "k") 0 = Returns ("7", None)
  /\ PlanNext [] (WrapPartitioner NewPreservePartitioner) 2 = PlanForNumberOf 2.
Proof.
  apply (IsPreserved_sound (WrapPartitioner NewPreservePartitioner) [] 3 0 2
           (mkContext "7") (mkRow "k")).
  reflexivity.
Defined.

(** X8.  The partitioners of the package, wrapped or not, return no
    error but NoOutput, and return it with the empty ID. *)
Theorem only_error_is_NoOutput (p : Partitioner) (rnd numOutputs : Z)
    (c : Context) (r : Row) (id : string) (err : error) :
  builtin p ->
  DeterminePartition p rnd c r numOutputs = Returns (id, Some err) ->
  err = ErrNoOutput /\ id = "".
Proof.
  induction p as [KeySet| | | |p' IH|p' IH|plan determine| |p' IH|p' IH];
    intros Hbuiltin Hdet; simpl in *.
  - case_decide; [discriminate|]. injection Hdet as <- <-. done.
  - case_decide; discriminate.
  - case_decide; discriminate.
  - discriminate.
  - by apply IH.
  - by apply IH.
  - destruct Hbuiltin.
  - discriminate.
  - by apply IH.
  - by apply IH.
Qed.

Lemma only_error_is_NoOutput_witness :
  ErrNoOutput = ErrNoOutput /\ "" = "".
Proof.
  apply (only_error_is_NoOutput
           (WithAssignmentToMaster (NewFiniteKeyPartitioner ["x"]))
           0 4 (mkContext "0") (mkRow "z") "" ErrNoOutput).
  - exact I.
  - vm_compute. reflexivity.
Defined.

(** X9.  How the partitioners of the package take the count.  A
    FiniteKey partitioner, wrapped or not, ignores it: it returns the
    same plan for every count, a negative one included.  Any other
    partitioner of the package panics on the length of the slice when
    the count is negative. *)
Theorem PlanNext_negative_count (p : Partitioner) (order : list string) :
  builtin p ->
  (holds_keys p = true ->
   exists pp, forall n, PlanNext order p n = Returns pp)
  /\ (holds_keys p = false ->
      forall n, n < 0 -> PlanNext order p n = Panics makesliceError).
Proof.
  induction p as [KeySet| | | |p' IH|p' IH|plan determine| |p' IH|p' IH];
    intros Hbuiltin; simpl in *;
    try (split; [discriminate|];
         intros _ n Hn; by apply PlanForNumberOf_negative).
  - split; [|discriminate]. intros _. by eexists.
  - by apply IH.
  - destruct (IH Hbuiltin) as [Hkeys Hother]. split.
    + intros Hp. destruct (Hkeys Hp) as [pp Hpp].
      eexists. intros n. by rewrite Hpp.
    + intros Hp n Hn. by rewrite (Hother Hp n Hn).
  - destruct Hbuiltin.
  - by apply IH.
  - destruct (IH Hbuiltin) as [Hkeys Hother]. split.
    + intros Hp. destruct (Hkeys Hp) as [pp Hpp].
      eexists. intros n. by rewrite Hpp.
    + intros Hp n Hn. by rewrite (Hother Hp n Hn).
Qed.

Lemma PlanNext_negative_count_witness :
  (holds_keys (WithAssignmentToMaster NewPreservePartitioner) = true ->
   exists pp,
     forall n,
       PlanNext [] (WithAssignmentToMaster NewPreservePartitioner) n = Returns pp)
  /\ (holds_keys (WithAssignmentToMaster NewPreservePartitioner) = false ->
      forall n,
        n < 0 ->
        PlanNext [] (WithAssignmentToMaster NewPreservePartitioner) n =
        Panics makesliceError).
Proof.
  apply (PlanNext_negative_count
           (WithAssignmentToMaster NewPreservePartitioner) []).
  exact I.
Defined.

(** A wrapped FiniteKey partitioner plans for a negative count, a
    wrapped HashKey partitioner panics on it. *)
Example PlanNext_minus_one :
  PlanNext ["x"] (WithAssignmentToMaster (NewFiniteKeyPartitioner ["x"])) (-1) =
    Returns [mkPartition "x" false (Some {["Type" := "master"]})]
  /\ PlanNext [] (WithAssignmentToMaster NewHashKeyPartitioner) (-1) =
    Panics makesliceError.
Proof. split; vm_compute; reflexivity. Qed.

End partitions_proofs.

(** ** Rows *)

Module lrdd_proofs.
Import lrdd.

Section From.

Variable RowPtr : Type.
Variable Value : any RowPtr -> RowPtr.
Variable KeyValue : string -> any RowPtr -> RowPtr.

(** The rows that one map entry contributes. *)
Lemma From_map_entry_app (rows : list RowPtr)
    (kv : reflect_Value RowPtr * reflect_Value RowPtr) :
  From_map_entry KeyValue rows kv = rows ++ From_map_entry KeyValue [] kv.
Proof.
  unfold From_map_entry. case_decide; [|reflexivity].
  generalize (Value_Indexes RowPtr kv.2); intros items.
  rewrite !(append_loop
              (fun item => KeyValue (Value_String RowPtr kv.1)
                             (Value_Interface RowPtr item))).
  reflexivity.
Qed.

Lemma From_map_loop (kvs : list (reflect_Value RowPtr * reflect_Value RowPtr)) :
  forall rows : list RowPtr,
    fold_left (From_map_entry KeyValue) kvs rows =
    rows ++ flat_map (From_map_entry KeyValue []) kvs.
Proof.
  induction kvs as [|kv kvs IH]; intros rows; simpl.
  - by rewrite app_nil_r.
  - rewrite IH, From_map_entry_app, <- app_assoc. reflexivity.
Qed.

(** [From] on a map: the rows of the entries, entry after entry. *)
Lemma From_map (kt et : GoType) (entries : list (any RowPtr * any RowPtr)) :
  From Value KeyValue (map_any kt et entries) =
  Returns (flat_map
             (fun kv : any RowPtr * any RowPtr =>
                From_map_entry KeyValue []
                  (mkValue RowPtr (Some kt) kv.1, mkValue RowPtr (Some et) kv.2))
             entries).
Proof.
  unfold From. simpl. rewrite From_map_loop. simpl. f_equal.
  induction entries as [|kv entries IH]; simpl; [reflexivity|].
  f_equal. exact IH.
Qed.

(** A map whose element type is a slice type gives one row per
    element, under the key of the entry. *)
Lemma From_map_of_slices (e : GoType)
    (entries : list (string * list (any RowPtr))) :
  From Value KeyValue
    (map_any TString (TSlice e)
       (map (fun kv => (string_any kv.1, slice_any e kv.2)) entries)) =
  Returns (flat_map (fun kv => KeyValue kv.1 <$> kv.2) entries).
Proof.
  rewrite From_map. f_equal.
  induction entries as [|[k items] entries IH]; simpl; [reflexivity|].
  f_equal; [|exact IH].
  unfold From_map_entry. simpl.
  rewrite (append_loop
             (fun item => KeyValue k (Value_Interface RowPtr item))). simpl.
  unfold Value_Indexes. simpl.
  rewrite <- list_fmap_compose. reflexivity.
Qed.

(** X14.  A map with string keys whose element type is [interface{}]
    gives one row per entry, made by [KeyValue] under the key of the
    entry, whatever the entry holds: a sequence held by an entry is not
    opened. *)
Lemma From_map_of_interfaces (entries : list (string * any RowPtr)) :
  From Value KeyValue
    (map_any TString TInterface
       (map (fun kv => (string_any kv.1, kv.2)) entries)) =
  Returns ((fun kv => KeyValue kv.1 kv.2) <$> entries).
Proof.
  rewrite From_map. f_equal.
  induction entries as [|[k v] entries IH]; simpl; [reflexivity|].
  f_equal. exact IH.
Qed.

(** C8 fails on the code at its own example.  The mapping
    [{"a": [1,2], "b": 3}] holds a slice and an [int], so its Go
    type is [map[string]interface{}]: every entry is read at kind
    [Interface], the slice is not opened, and [From] yields two
    rows, in either order of the entries, where C8 has three. *)
Theorem From_example_two_rows :
  From Value KeyValue (example_mapping RowPtr) =
    Returns [KeyValue "a" (slice_any TInt [int_any 1; int_any 2]);
             KeyValue "b" (int_any 3)]
  /\ From Value KeyValue (example_mapping_swapped RowPtr) =
    Returns [KeyValue "b" (int_any 3);
             KeyValue "a" (slice_any TInt [int_any 1; int_any 2])]
  /\ claimed_rows KeyValue (example_entries RowPtr) =
    [KeyValue "a" (int_any 1); KeyValue "a" (int_any 2);
     KeyValue "b" (int_any 3)]
  /\ From Value KeyValue (example_mapping RowPtr) <>
    Returns (claimed_rows KeyValue (example_entries RowPtr)).
Proof.
  repeat split. intros Heq. discriminate Heq.
Qed.

(** With the slice type as the element type of the map, the rows are
    the claimed ones. *)
Lemma From_map_of_slices_claimed (e : GoType)
    (entries : list (string * list (any RowPtr))) :
  From Value KeyValue
    (map_any TString (TSlice e)
       (map (fun kv => (string_any kv.1, slice_any e kv.2)) entries)) =
  Returns (claimed_rows KeyValue
             (map (fun kv => (kv.1, slice_any e kv.2)) entries)).
Proof.
  rewrite From_map_of_slices. f_equal. unfold claimed_rows.
  induction entries as [|[k items] entries IH]; simpl; [reflexivity|].
  f_equal. exact IH.
Qed.

End From.

Section Merge.

Variable V : Type.
Variable zero : V.

Abbreviation heap := (gmap positive (gmap string V)).

Lemma entries_insert_ne (h : heap) (o : positive) (m : gmap string V)
    (r : Row) :
  r <> Some o -> entries V (<[o := m]> h) r = entries V h r.
Proof.
  intros Hne. destruct r as [l|]; simpl; [|reflexivity].
  rewrite lookup_insert_ne by congruence. reflexivity.
Qed.

(** The copy loop only writes [o]; what it leaves there is the old
    content overwritten, key after key, with the entries of [src]. *)
Lemma Merge_range_insert (keys : list string) (src : Row) (o : positive) :
  forall (h : heap) (m : gmap string V),
    src <> Some o ->
    h !! o = Some m ->
    Merge_range V zero keys src o h =
    <[o := fold_left (fun m k => <[k := index V zero h src k]> m) keys m]> h.
Proof.
  induction keys as [|k keys IH]; intros h m Hne Ho; simpl.
  - by rewrite insert_id.
  - unfold assign at 1.
    rewrite (alter_alt_Some _ _ _ _ Ho).
    rewrite (IH _ (<[k := index V zero h src k]> m)); try done.
    + rewrite insert_insert_eq. f_equal.
      apply fold_left_ext. intros m' k'. f_equal.
      unfold index. by rewrite entries_insert_ne.
    + apply lookup_insert_eq.
Qed.

Lemma overwrite_lookup (f : string -> V) (keys : list string) (k : string) :
  forall m : gmap string V,
    fold_left (fun m k => <[k := f k]> m) keys m !! k =
    if decide (k ∈ keys) then Some (f k) else m !! k.
Proof.
  induction keys as [|k' keys IH]; intros m; cbn [fold_left].
  - case_decide as Hin; [|reflexivity]. by apply elem_of_nil in Hin.
  - rewrite IH.
    destruct (decide (k ∈ keys)) as [Hin|Hnin];
      destruct (decide (k ∈ k' :: keys)) as [Hin'|Hnin'];
      try reflexivity.
    + exfalso. apply Hnin'. by right.
    + apply elem_of_cons in Hin' as [->|Hin']; [|done].
      apply lookup_insert_eq.
    + apply lookup_insert_ne. intros ->. apply Hnin'. by left.
Qed.

(** Ranging over the keys of [r] and reading [r[k]] yields the
    entries of [r]. *)
Lemma range_lookup (h : heap) (r : Row) (order : list string) (k : string)
    (m : gmap string V) :
  order ≡ₚ elements (dom (entries V h r)) ->
  (if decide (k ∈ order) then Some (index V zero h r k) else m !! k) =
  match entries V h r !! k with
  | Some v => Some v
  | None => m !! k
  end.
Proof.
  intros Horder. unfold index.
  assert (Hin : k ∈ order <-> is_Some (entries V h r !! k)).
  { by rewrite Horder, elem_of_elements, elem_of_dom. }
  destruct (entries V h r !! k) as [v|] eqn:Hk; case_decide as Hk';
    try reflexivity.
  - exfalso. apply Hk', Hin. by eexists.
  - apply Hin in Hk' as [v Hv]. discriminate.
Qed.

(** C10.  For any two rows [r] and [a] of the heap, in whatever
    order their keys are ranged over, [r.Merge(a)] returns a row [o]
    that was not allocated before the call; no other map of the heap
    is written, so [r] and [a] keep their entries; the keys of [o]
    are those of [r] and those of [a]; a key of [a] maps to the value
    it has in [a], any other key to the value it has in [r]. *)
Theorem Merge_spec (order_r order_a : list string) (h : heap) (r a : Row) :
  Row_in V h r ->
  Row_in V h a ->
  order_r ≡ₚ elements (dom (entries V h r)) ->
  order_a ≡ₚ elements (dom (entries V h a)) ->
  exists (o : positive) (h' : heap),
    Merge V zero order_r order_a h r a = (h', Some o)
    /\ h !! o = None
    /\ (forall l, l <> o -> h' !! l = h !! l)
    /\ entries V h' r = entries V h r
    /\ entries V h' a = entries V h a
    /\ dom (entries V h' (Some o)) =
         dom (entries V h r) ∪ dom (entries V h a)
    /\ forall k,
         entries V h' (Some o) !! k =
         match entries V h a !! k with
         | Some v => Some v
         | None => entries V h r !! k
         end.
Proof.
  intros Hr Ha Horder_r Horder_a.
  set (o := fresh (dom h)).
  assert (Ho : h !! o = None).
  { apply not_elem_of_dom. apply is_fresh. }
  assert (Hro : r <> Some o).
  { intros ->. simpl in Hr. rewrite Ho in Hr. by destruct Hr. }
  assert (Hao : a <> Some o).
  { intros ->. simpl in Ha. rewrite Ho in Ha. by destruct Ha. }
  set (m1 := fold_left (fun m k => <[k := index V zero h r k]> m)
               order_r (∅ : gmap string V)).
  set (m2 := fold_left (fun m k => <[k := index V zero h a k]> m)
               order_a m1).
  assert (Hmerge :
    Merge V zero order_r order_a h r a = (<[o := m2]> h, Some o)).
  { unfold Merge, make_Row. fold o.
    rewrite (Merge_range_insert order_r r o _ ∅ Hro)
      by apply lookup_insert_eq.
    rewrite insert_insert_eq.
    rewrite (fold_left_ext _ (fun m k => <[k := index V zero h r k]> m))
      by (intros m k; unfold index; by rewrite entries_insert_ne).
    fold m1.
    rewrite (Merge_range_insert order_a a o _ m1 Hao)
      by apply lookup_insert_eq.
    rewrite insert_insert_eq.
    rewrite (fold_left_ext _ (fun m k => <[k := index V zero h a k]> m))
      by (intros m k; unfold index; by rewrite entries_insert_ne).
    reflexivity. }
  assert (Hlookup : forall k,
    m2 !! k = match entries V h a !! k with
              | Some v => Some v
              | None => entries V h r !! k
              end).
  { intros k. unfold m2.
    rewrite (overwrite_lookup (fun k => index V zero h a k)).
    rewrite (range_lookup h a order_a k m1 Horder_a).
    destruct (entries V h a !! k); [reflexivity|].
    unfold m1.
    rewrite (overwrite_lookup (fun k => index V zero h r k)).
    rewrite (range_lookup h r order_r k ∅ Horder_r).
    destruct (entries V h r !! k); [reflexivity|]. apply lookup_empty. }
  assert (Hentries : entries V (<[o := m2]> h) (Some o) = m2).
  { simpl. by rewrite lookup_insert_eq. }
  exists o, (<[o := m2]> h).
  split; [exact Hmerge|]. split; [exact Ho|].
  split; [intros l Hl; by apply lookup_insert_ne|].
  split; [by apply entries_insert_ne|].
  split; [by apply entries_insert_ne|].
  rewrite Hentries. split; [|exact Hlookup].
  apply set_eq. intros k.
  rewrite elem_of_union, !elem_of_dom, Hlookup.
  destruct (entries V h a !! k) as [va|], (entries V h r !! k) as [vr|];
    split; intros H; eauto;
    destruct H as [H|H]; eauto; destruct H; discriminate.
Qed.

End Merge.

Lemma Merge_spec_witness :
  exists (o : positive) (h' : gmap positive (gmap string Z)),
    Merge Z 0 (sample_order (Some 1%positive)) (sample_order (Some 2%positive))
      sample_heap (Some 1%positive) (Some 2%positive) = (h', Some o)
    /\ sample_heap !! o = None
    /\ (forall l, l <> o -> h' !! l = sample_heap !! l)
    /\ entries Z h' (Some 1%positive) = entries Z sample_heap (Some 1%positive)
    /\ entries Z h' (Some 2%positive) = entries Z sample_heap (Some 2%positive)
    /\ dom (entries Z h' (Some o)) =
         dom (entries Z sample_heap (Some 1%positive))
         ∪ dom (entries Z sample_heap (Some 2%positive))
    /\ forall k,
         entries Z h' (Some o) !! k =
         match entries Z sample_heap (Some 2%positive) !! k with
         | Some v => Some v
         | None => entries Z sample_heap (Some 1%positive) !! k
         end.
Proof.
  apply (Merge_spec Z 0 (sample_order (Some 1%positive))
           (sample_order (Some 2%positive)) sample_heap
           (Some 1%positive) (Some 2%positive)).
  - eexists. vm_compute. reflexivity.
  - eexists. vm_compute. reflexivity.
  - reflexivity.
  - reflexivity.
Defined.

(** The merged row of the sample: ["x"] from [r], ["y"] from [a]. *)
Example Merge_sample :
  let '(h', o) :=
    Merge Z 0 (sample_order (Some 1%positive)) (sample_order (Some 2%positive))
      sample_heap (Some 1%positive) (Some 2%positive) in
  o = Some 3%positive
  /\ entries Z h' o !! "x" = Some 1
  /\ entries Z h' o !! "y" = Some 3
  /\ entries Z h' o !! "z" = None.
Proof. vm_compute. repeat split. Qed.

(** *** Further properties of [From] *)

Section FromMore.

Variable RowPtr : Type.
Variable Value : any RowPtr -> RowPtr.
Variable KeyValue : string -> any RowPtr -> RowPtr.

Lemma Value_Indexes_loop (f : any RowPtr -> RowPtr) (e : GoType)
    (items : list (any RowPtr)) (rows : list RowPtr) :
  fold_left (fun rows item => rows ++ [f (Value_Interface RowPtr item)])
    (map (fun item => mkValue RowPtr (Some e) item) items) rows =
  rows ++ (f <$> items).
Proof.
  rewrite (append_loop (fun item => f (Value_Interface RowPtr item))).
  f_equal. rewrite <- list_fmap_compose. reflexivity.
Qed.

(** X10.  On a slice or an array whose elements are not pointers to
    rows, [From] returns one row per element, made by [Value], in the
    order of the elements; an empty sequence gives no row. *)
Theorem From_sequence (e : GoType) (items : list (any RowPtr)) :
  e <> rowType ->
  From Value KeyValue (slice_any e items) = Returns (Value <$> items)
  /\ From Value KeyValue (array_any e items) = Returns (Value <$> items).
Proof.
  intros He. unfold From, Value_Kind, ValueOf, Value_Indexes. simpl.
  rewrite !decide_False by congruence.
  by rewrite (Value_Indexes_loop Value).
Qed.

(** X11.  On a slice of pointers to rows [From] returns those rows as
    they are, without going through [Value]. *)
Theorem From_rows (rows : list RowPtr) :
  From Value KeyValue (slice_any TRowPtr (rowptr_any <$> rows)) = Returns rows.
Proof.
  unfold From, Value_Kind, ValueOf. simpl. f_equal.
  induction rows as [|r rows IH]; simpl; [reflexivity|].
  f_equal. exact IH.
Qed.

(** X12.  [From] panics on one kind of value only, an array of pointers
    to rows (the type assertion to a slice fails), and never blocks. *)
Theorem From_panics_iff (values : any RowPtr) :
  From Value KeyValue values <> Blocks
  /\ ((exists v, From Value KeyValue values = Panics v) <->
      exists items, values = array_any TRowPtr items).
Proof.
  split.
  - unfold From, Value_Kind, ValueOf.
    destruct values as [| | | | |e items|e items|kt et entries]; simpl;
      try discriminate; case_decide; try discriminate;
      destruct e; discriminate.
  - split.
    + intros [v Hv]. revert Hv. unfold From, Value_Kind, ValueOf.
      destruct values as [| | | | |e items|e items|kt et entries]; simpl;
        try discriminate.
      * case_decide; [|discriminate]. destruct e; discriminate.
      * case_decide as He; [|discriminate]. injection He as ->. eauto.
    + intros [items ->]. eexists. reflexivity.
Qed.

(** X13.  On a map with string keys whose element type is a slice type
    or an array type, [From] returns one row per element of every entry,
    made by [KeyValue] under the key of the entry, in the order of the
    elements; an entry with no element gives no row. *)
Theorem From_map_of_sequences (e : GoType) (n : nat)
    (entries : list (string * list (any RowPtr))) :
  From Value KeyValue
    (map_any TString (TSlice e)
       (map (fun kv => (string_any kv.1, slice_any e kv.2)) entries)) =
    Returns (flat_map (fun kv => KeyValue kv.1 <$> kv.2) entries)
  /\ From Value KeyValue
    (map_any TString (TArray n e)
       (map (fun kv => (string_any kv.1, array_any e kv.2)) entries)) =
    Returns (flat_map (fun kv => KeyValue kv.1 <$> kv.2) entries).
Proof.
  split; rewrite From_map; f_equal;
    (induction entries as [|[k items] entries IH]; simpl; [reflexivity|]);
    (f_equal; [|exact IH]);
    unfold From_map_entry, Value_Indexes; simpl;
    apply (Value_Indexes_loop (KeyValue k)).
Qed.

Lemma Value_String_other (kt : GoType) (k : any RowPtr) :
  kt <> TString ->
  Value_String RowPtr (mkValue RowPtr (Some kt) k) =
  "<" +:+ Type_String kt +:+ " Value>".
Proof. intros Hkt. by destruct kt. Qed.

(** X15.  The keys of a map whose key type is not [string] do not reach
    the rows: on a [map[K]interface{}] every row gets the same key, the
    name of the type [K] between angle brackets, as [reflect] renders a
    value that is not a string. *)
Theorem From_map_other_keys (kt : GoType)
    (entries : list (any RowPtr * any RowPtr)) :
  kt <> TString ->
  From Value KeyValue (map_any kt TInterface entries) =
  Returns ((fun kv => KeyValue ("<" +:+ Type_String kt +:+ " Value>") kv.2)
             <$> entries).
Proof.
  intros Hkt. rewrite From_map. f_equal.
  induction entries as [|[k v] entries IH]; [reflexivity|].
  rewrite fmap_cons. cbn [flat_map]. rewrite IH. cbn [app].
  unfold From_map_entry.
  rewrite decide_False by (cbn; intros [?|?]; discriminate).
  cbn [fst snd app]. by rewrite Value_String_other.
Qed.

End FromMore.

Lemma From_sequence_witness :
  From sample_Value sample_KeyValue (slice_any TInt [int_any 1; int_any 2]) =
    Returns (sample_Value <$> [int_any 1; int_any 2])
  /\ From sample_Value sample_KeyValue (array_any TInt [int_any 1; int_any 2]) =
    Returns (sample_Value <$> [int_any 1; int_any 2]).
Proof.
  apply (From_sequence KeyedRow sample_Value sample_KeyValue TInt).
  discriminate.
Defined.

Lemma From_map_other_keys_witness :
  From sample_Value sample_KeyValue (map_any TInt TInterface sample_int_entries) =
  Returns ((fun kv => sample_KeyValue ("<" +:+ Type_String TInt +:+ " Value>") kv.2)
             <$> sample_int_entries).
Proof.
  apply (From_map_other_keys KeyedRow sample_Value sample_KeyValue TInt).
  discriminate.
Defined.

Example From_int_keys :
  From sample_Value sample_KeyValue (map_any TInt TInterface sample_int_entries) =
  Returns [keyed_row "<int Value>" (string_any "one");
           keyed_row "<int Value>" (string_any "two")].
Proof. reflexivity. Qed.


(** *** The algebra of [Merge] *)

Section MergeAlgebra.

Variable V : Type.
Variable zero : V.

Abbreviation heap := (gmap positive (gmap string V)).

Lemma Row_in_fresh (h : heap) (r : Row) :
  Row_in V h r -> r <> Some (fresh (dom h)).
Proof.
  intros Hr ->. simpl in Hr.
  assert (Ho : h !! fresh (dom h) = None).
  { apply not_elem_of_dom. apply is_fresh. }
  rewrite Ho in Hr. by destruct Hr.
Qed.

(** What [Merge] leaves on the heap: one more map, at a location that
    was free, holding the entries of [a] and, for the other keys, those
    of [r]. *)
Lemma Merge_union (order_r order_a : list string) (h : heap) (r a : Row) :
  Row_in V h r ->
  Row_in V h a ->
  order_r ≡ₚ elements (dom (entries V h r)) ->
  order_a ≡ₚ elements (dom (entries V h a)) ->
  Merge V zero order_r order_a h r a =
  (<[fresh (dom h) := entries V h a ∪ entries V h r]> h, Some (fresh (dom h))).
Proof.
  intros Hr Ha Horder_r Horder_a.
  pose proof (Row_in_fresh h r Hr) as Hro.
  pose proof (Row_in_fresh h a Ha) as Hao.
  set (o := fresh (dom h)) in *.
  unfold Merge, make_Row. fold o.
  rewrite (Merge_range_insert V zero order_r r o _ ∅ Hro)
    by apply lookup_insert_eq.
  rewrite insert_insert_eq.
  rewrite (Merge_range_insert V zero order_a a o _ _ Hao)
    by apply lookup_insert_eq.
  rewrite insert_insert_eq. f_equal. f_equal.
  apply map_eq. intros k.
  rewrite (fold_left_ext _ (fun m k => <[k := index V zero h a k]> m))
    by (intros m k'; unfold index; by rewrite !entries_insert_ne).
  rewrite (overwrite_lookup V (fun k => index V zero h a k)).
  rewrite (range_lookup V zero h a order_a k _ Horder_a).
  rewrite lookup_union.
  destruct (entries V h a !! k) as [va|]; simpl.
  { by destruct (entries V h r !! k). }
  rewrite (fold_left_ext _ (fun m k => <[k := index V zero h r k]> m))
    by (intros m k'; unfold index; by rewrite !entries_insert_ne).
  rewrite (overwrite_lookup V (fun k => index V zero h r k)).
  rewrite (range_lookup V zero h r order_r k ∅ Horder_r).
  destruct (entries V h r !! k); [reflexivity|]. apply lookup_empty.
Qed.

Lemma entries_Merge (order_r order_a : list string) (h : heap) (r a : Row) :
  Row_in V h r ->
  Row_in V h a ->
  order_r ≡ₚ elements (dom (entries V h r)) ->
  order_a ≡ₚ elements (dom (entries V h a)) ->
  entries V (Merge V zero order_r order_a h r a).1
            (Merge V zero order_r order_a h r a).2 =
  entries V h a ∪ entries V h r.
Proof.
  intros Hr Ha Horder_r Horder_a.
  rewrite (Merge_union order_r order_a h r a) by assumption.
  simpl. by rewrite lookup_insert_eq.
Qed.

Lemma Merge_fresh_row (order_r order_a : list string) (h : heap) (r a : Row) :
  Row_in V h r ->
  Row_in V h a ->
  order_r ≡ₚ elements (dom (entries V h r)) ->
  order_a ≡ₚ elements (dom (entries V h a)) ->
  fresh_row_with V h (Merge V zero order_r order_a h r a)
    (entries V h a ∪ entries V h r).
Proof.
  intros Hr Ha Horder_r Horder_a.
  rewrite (Merge_union order_r order_a h r a) by assumption.
  exists (fresh (dom h)). cbn [fst snd].
  split; [reflexivity|]. split; [|split].
  - apply not_elem_of_dom. apply is_fresh.
  - intros l Hl. by apply lookup_insert_ne.
  - simpl. by rewrite lookup_insert_eq.
Qed.

(** X16.  Merging with the nil row, on either side, gives a copy of the
    other row: a row made by the call, where nothing was allocated
    before (so it is not the row merged), with the entries of the other
    row, the maps of the heap being left as they were.  Merging nil with
    nil gives such a row with no entry: it is not nil. *)
Theorem Merge_nil (order : list string) (h : heap) (r : Row) :
  Row_in V h r ->
  order ≡ₚ elements (dom (entries V h r)) ->
  fresh_row_with V h (Merge V zero order [] h r None) (entries V h r)
  /\ (Merge V zero order [] h r None).2 <> r
  /\ fresh_row_with V h (Merge V zero [] order h None r) (entries V h r)
  /\ (Merge V zero [] order h None r).2 <> r
  /\ fresh_row_with V h (Merge V zero [] [] h None None) ∅.
Proof.
  intros Hr Horder.
  assert (Hnil : [] ≡ₚ elements (dom (entries V h None))).
  { simpl. by rewrite dom_empty_L, elements_empty. }
  pose proof (Merge_fresh_row order [] h r None Hr I Horder Hnil) as Hleft.
  pose proof (Merge_fresh_row [] order h None r I Hr Hnil Horder) as Hright.
  pose proof (Merge_fresh_row [] [] h None None I I Hnil Hnil) as Hboth.
  simpl entries in Hleft, Hright, Hboth.
  rewrite (left_id_L ∅ (∪)) in Hleft, Hboth.
  rewrite (right_id_L ∅ (∪)) in Hright.
  assert (Hother : forall res : heap * Row,
            (exists m, fresh_row_with V h res m) -> res.2 <> r).
  { intros res (m & o & Ho & Hfree & _) Heq. rewrite Ho in Heq. subst r.
    simpl in Hr. rewrite Hfree in Hr. by destruct Hr. }
  split; [exact Hleft|]. split; [apply Hother; by eexists|].
  split; [exact Hright|]. split; [apply Hother; by eexists|].
  exact Hboth.
Qed.

(** X17.  Merging a row with itself gives a copy of it: the same
    entries, in a row that is not the row merged. *)
Theorem Merge_self (order order' : list string) (h : heap) (r : Row) :
  Row_in V h r ->
  order ≡ₚ elements (dom (entries V h r)) ->
  order' ≡ₚ elements (dom (entries V h r)) ->
  entries V (Merge V zero order order' h r r).1
            (Merge V zero order order' h r r).2 = entries V h r
  /\ (Merge V zero order order' h r r).2 <> r.
Proof.
  intros Hr Horder Horder'. split.
  - rewrite entries_Merge by done. apply (idemp_L (∪)).
  - rewrite (Merge_union order order' h r r) by done. simpl.
    intros Heq. by apply (Row_in_fresh h r Hr).
Qed.

(** X18.  Merging is associative on the entries: merging [r] with [a]
    and the result with [b] gives the entries that merging [r] with the
    merge of [a] and [b] gives, in whatever order the keys are ranged
    over. *)
Theorem Merge_assoc (ord : heap -> Row -> list string) (h : heap)
    (r a b : Row) :
  (forall h' r', ord h' r' ≡ₚ elements (dom (entries V h' r'))) ->
  Row_in V h r ->
  Row_in V h a ->
  Row_in V h b ->
  let merge h' x y := Merge V zero (ord h' x) (ord h' y) h' x y in
  let ra := merge h r a in
  let ra_b := merge ra.1 ra.2 b in
  let ab := merge h a b in
  let r_ab := merge ab.1 r ab.2 in
  entries V ra_b.1 ra_b.2 = entries V r_ab.1 r_ab.2.
Proof.
  intros Hord Hr Ha Hb merge ra ra_b ab r_ab.
  pose proof (Row_in_fresh h r Hr) as Hro.
  pose proof (Row_in_fresh h a Ha) as Hao.
  pose proof (Row_in_fresh h b Hb) as Hbo.
  assert (Hra : ra = (<[fresh (dom h) := entries V h a ∪ entries V h r]> h,
                      Some (fresh (dom h)))).
  { apply Merge_union; auto. }
  assert (Hab : ab = (<[fresh (dom h) := entries V h b ∪ entries V h a]> h,
                      Some (fresh (dom h)))).
  { apply Merge_union; auto. }
  assert (Hin : forall (m : gmap string V) (x : Row),
            Row_in V h x -> Row_in V (<[fresh (dom h) := m]> h) x).
  { intros m [l|] Hx; simpl in *; [|done].
    destruct (decide (fresh (dom h) = l)) as [<-|Hne].
    - rewrite lookup_insert_eq. by eexists.
    - by rewrite lookup_insert_ne. }
  assert (Hnew : forall m : gmap string V,
            Row_in V (<[fresh (dom h) := m]> h) (Some (fresh (dom h)))).
  { intros m. simpl. rewrite lookup_insert_eq. by eexists. }
  unfold ra_b, r_ab, merge. rewrite Hra, Hab. cbn [fst snd].
  rewrite !entries_Merge by auto.
  rewrite ?(entries_insert_ne V _ _ _ r Hro), ?(entries_insert_ne V _ _ _ a Hao),
    ?(entries_insert_ne V _ _ _ b Hbo).
  simpl. rewrite !lookup_insert_eq. simpl.
  apply (assoc_L (∪)).
Qed.

End MergeAlgebra.

Lemma Merge_nil_witness :
  fresh_row_with Z sample_heap
    (Merge Z 0 (sample_order (Some 1%positive)) [] sample_heap
       (Some 1%positive) None)
    (entries Z sample_heap (Some 1%positive))
  /\ (Merge Z 0 (sample_order (Some 1%positive)) [] sample_heap
        (Some 1%positive) None).2 <> Some 1%positive
  /\ fresh_row_with Z sample_heap
       (Merge Z 0 [] (sample_order (Some 1%positive)) sample_heap
          None (Some 1%positive))
       (entries Z sample_heap (Some 1%positive))
  /\ (Merge Z 0 [] (sample_order (Some 1%positive)) sample_heap
        None (Some 1%positive)).2 <> Some 1%positive
  /\ fresh_row_with Z sample_heap (Merge Z 0 [] [] sample_heap None None) ∅.
Proof.
  apply (Merge_nil Z 0 (sample_order (Some 1%positive)) sample_heap
           (Some 1%positive)).
  - eexists. vm_compute. reflexivity.
  - reflexivity.
Defined.

Lemma Merge_self_witness :
  entries Z (Merge Z 0 (sample_order (Some 1%positive))
               (sample_order (Some 1%positive)) sample_heap
               (Some 1%positive) (Some 1%positive)).1
            (Merge Z 0 (sample_order (Some 1%positive))
               (sample_order (Some 1%positive)) sample_heap
               (Some 1%positive) (Some 1%positive)).2 =
    entries Z sample_heap (Some 1%positive)
  /\ (Merge Z 0 (sample_order (Some 1%positive))
         (sample_order (Some 1%positive)) sample_heap
         (Some 1%positive) (Some 1%positive)).2 <> Some 1%positive.
Proof.
  apply (Merge_self Z 0 (sample_order (Some 1%positive))
           (sample_order (Some 1%positive)) sample_heap (Some 1%positive)).
  - eexists. vm_compute. reflexivity.
  - reflexivity.
  - reflexivity.
Defined.

Lemma Merge_assoc_witness :
  let merge h' x y :=
    Merge Z 0 (sorted_keys h' x) (sorted_keys h' y) h' x y in
  let ra := merge sample_heap (Some 1%positive) (Some 2%positive) in
  let ra_b := merge ra.1 ra.2 (Some 1%positive) in
  let ab := merge sample_heap (Some 2%positive) (Some 1%positive) in
  let r_ab := merge ab.1 (Some 1%positive) ab.2 in
  entries Z ra_b.1 ra_b.2 = entries Z r_ab.1 r_ab.2.
Proof.
  apply (Merge_assoc Z 0 sorted_keys sample_heap
           (Some 1%positive) (Some 2%positive) (Some 1%positive)).
  - intros h' r'. reflexivity.
  - eexists. vm_compute. reflexivity.
  - eexists. vm_compute. reflexivity.
  - eexists. vm_compute. reflexivity.
Defined.


End lrdd_proofs.

(** ** The task executor *)

Module worker_proofs.
Import worker.

Section TaskExecutor.

Variable Row : Type.
Variable w : Collaborators Row.

Ltac unfold_exec :=
  cbv beta iota delta
    [mbind Exec_bind mret Exec_ret call block
     do_Apply do_Teardown do_Close do_ReportSuccess do_ReportFailure
     send_finishChan] in *.

(** [Abort] reports the failure, and closes the output unless the
    report did not return. *)
Lemma Abort_events (err : error) (tr : list (Event Row))
    (res : result unit) (tr' : list (Event Row)) :
  Abort Row w err tr = (res, tr') ->
  exists evs,
    tr' = tr ++ EvReportFailure err :: evs
    /\ Forall (fun ev => ev = EvClose) evs.
Proof.
  unfold Abort. unfold_exec.
  destruct (reporter_ReportFailure Row w _ err);
    [destruct (Output_Close Row w _)|..];
    intros [= <- <-]; rewrite <- ?app_assoc; simpl;
    eexists; (split; [reflexivity|]); repeat constructor.
Qed.

Lemma close_events_quiet (evs : list (Event Row)) :
  Forall (fun ev => ev = EvClose) evs ->
  (EvFinish ∉ evs)
  /\ (EvReportSuccess ∉ evs)
  /\ (forall e, EvReportFailure e ∉ evs)
  /\ Forall drain_event evs.
Proof.
  intros Hevs. repeat split.
  - intros Hin. eapply Forall_forall in Hevs; [|exact Hin]. discriminate.
  - intros Hin. eapply Forall_forall in Hevs; [|exact Hin]. discriminate.
  - intros e Hin. eapply Forall_forall in Hevs; [|exact Hin]. discriminate.
  - eapply Forall_impl; [exact Hevs|]. by intros ev ->.
Qed.

Ltac abort_step :=
  match goal with
  | |- context [Abort ?R ?c ?e ?tr] =>
      let res := fresh "res" in
      let tr' := fresh "tr" in
      let Hab := fresh "Habort" in
      let Hq := fresh "Hquiet" in
      destruct (Abort R c e tr) as [res tr'] eqn:Hab;
      apply Abort_events in Hab as (? & -> & Hq);
      apply close_events_quiet in Hq as (? & ? & ? & ?);
      destruct res as [[]|?|]
  end.

Ltac call_step :=
  match goal with
  | |- context [match ?x with _ => _ end] =>
      lazymatch x with
      | context [match _ with _ => _ end] => fail
      | context [Abort] => fail
      | _ => destruct x as [[?|]|?|] eqn:?
      end
  end.

Ltac run_cases := repeat ((abort_step || call_step); cbv beta iota).

(** The drain loop applies batches, and reports a failure at most at
    its very end; when control goes on after the loop it has only
    applied batches. *)
Lemma Run_drain_events (batches : list (list Row)) :
  forall tr res tr',
    Run_drain Row w batches tr = (res, tr') ->
    exists evs,
      tr' = tr ++ evs
      /\ Forall drain_event evs
      /\ (res = Returns true ->
          Forall (fun ev => is_apply Row ev = true) evs).
Proof.
  induction batches as [|rows batches IH]; intros tr res tr';
    simpl; unfold_exec.
  - destruct (Input_closed Row w); intros [= <- <-];
      exists []; by rewrite app_nil_r.
  - destruct (runner_Apply Row w _ rows) as [[e|]|v|] eqn:Happly.
    + abort_step; intros [= <- <-];
        rewrite <- ?app_assoc; simpl; eexists; (split; [reflexivity|]);
        (split; [repeat constructor; assumption | discriminate]).
    + intros Hrun. apply IH in Hrun as (evs & -> & Hevs & Happ).
      exists (EvApply rows :: evs). rewrite <- app_assoc. simpl.
      split; [reflexivity|]. split; [by constructor|].
      intros Hres. constructor; [reflexivity | by apply Happ].
    + intros [= <- <-]. eexists. split; [reflexivity|].
      split; [repeat constructor | discriminate].
    + intros [= <- <-]. eexists. split; [reflexivity|].
      split; [repeat constructor | discriminate].
Qed.

Lemma drain_events_quiet (evs : list (Event Row)) :
  Forall drain_event evs -> (EvFinish ∉ evs) /\ (EvReportSuccess ∉ evs).
Proof.
  intros Hevs. split; intros Hin;
    eapply Forall_forall in Hevs; try exact Hin; exact Hevs.
Qed.

Lemma apply_events_quiet (evs : list (Event Row)) :
  Forall (fun ev => is_apply Row ev = true) evs ->
  forall e, EvReportFailure e ∉ evs.
Proof.
  intros Hevs e Hin.
  eapply Forall_forall in Hevs; [|exact Hin]. discriminate.
Qed.

(** Every way a run can go: the outcome of the drain loop first, then
    of every call after it. *)
Ltac run_analysis :=
  unfold aborted, WaitForFinish_returns, Run_trace;
  let res := fresh "res" in
  let tr := fresh "tr" in
  let Hrun := fresh "Hrun" in
  destruct (Run Row w []) as [res tr] eqn:Hrun;
  cbn [snd];
  revert Hrun; unfold Run, AbortOnPanic, Run_body;
  unfold_exec;
  destruct (finishChan_receiver Row w);
  let Hdrain := fresh "Hdrain" in
  let dres := fresh "dres" in
  destruct (Run_drain Row w (Input_C Row w) []) as [dres ?] eqn:Hdrain;
  apply Run_drain_events in Hdrain as (evs & -> & Hevs & Happ);
  pose proof (drain_events_quiet _ Hevs) as [Hfin Hsucc];
  cbn [app];
  destruct dres as [[|]|?|]; run_cases;
  intros [= <- <-];
  rewrite ?elem_of_app, ?elem_of_cons, ?elem_of_nil.

(** X19.  The send on [finishChan] happens exactly when [ReportSuccess]
    was called and returned nil. *)
Lemma finish_iff_success_reported :
  WaitForFinish_returns w <->
  EvReportSuccess ∈ Run_trace w
  /\ reporter_ReportSuccess Row w = Returns None.
Proof.
  run_analysis; intuition (try discriminate; try congruence).
Qed.

(** X20.  A run goes through [Abort] and still sends on [finishChan]
    only when [Output.Close()] returned an error. *)
Lemma abort_and_finish_needs_close_error :
  aborted w ->
  WaitForFinish_returns w ->
  exists n e, Output_Close Row w n = Returns (Some e).
Proof.
  run_analysis; intros [err Herr] Hf;
    try (eexists _, _; eassumption);
    exfalso;
    rewrite ?elem_of_app, ?elem_of_cons, ?elem_of_nil in Herr;
    try (specialize (apply_events_quiet _ (Happ eq_refl) err) as Hnofail);
    intuition (try discriminate; try congruence; eauto).
Qed.

(** *** A run whose first [Output.Close()] returns an error *)

Lemma calls_app (kind : Event Row -> bool) (tr1 tr2 : list (Event Row)) :
  calls Row kind (tr1 ++ tr2) = (calls Row kind tr1 + calls Row kind tr2)%nat.
Proof. unfold calls. by rewrite List.filter_app, length_app. Qed.

Lemma calls_applies (kind : Event Row -> bool) (batches : list (list Row)) :
  (forall rows, kind (EvApply rows) = false) ->
  calls Row kind (EvApply <$> batches) = O.
Proof.
  intros Hkind. unfold calls.
  induction batches as [|rows batches IH]; simpl; [reflexivity|].
  by rewrite Hkind.
Qed.

(** Count the calls made so far, to find the outcome of the next. *)
Ltac count_calls :=
  repeat match goal with
    | |- context [calls ?R ?kind (?tr1 ++ ?tr2)] =>
        rewrite (calls_app kind tr1 tr2)
    | |- context [calls ?R ?kind (EvApply <$> ?batches)] =>
        rewrite (calls_applies kind batches) by reflexivity
    | |- context [calls ?R ?kind [?ev]] =>
        let n := eval cbv in (calls R kind [ev]) in
        change (calls R kind [ev]) with n
    end;
  cbn [Nat.add].

Lemma Run_drain_all_applied (batches : list (list Row)) :
  Input_closed Row w = true ->
  (forall n rows, runner_Apply Row w n rows = Returns None) ->
  forall tr,
    Run_drain Row w batches tr = (Returns true, tr ++ (EvApply <$> batches)).
Proof.
  intros Hclosed Happly.
  induction batches as [|rows batches IH]; intros tr; simpl; unfold_exec.
  - rewrite Hclosed. by rewrite app_nil_r.
  - rewrite Happly, IH, <- app_assoc. reflexivity.
Qed.

(** X21.  Whenever the input is drained and torn down without error and
    the first [Output.Close()] returns an error [e], the run reports the
    failure, closes again, and then goes on to report success and to
    send on [finishChan]. *)
Lemma close_error_falls_through (e : error) (r1 r2 : option error) :
  Input_closed Row w = true ->
  (forall n rows, runner_Apply Row w n rows = Returns None) ->
  runner_Teardown Row w = Returns None ->
  Output_Close Row w 0 = Returns (Some e) ->
  reporter_ReportFailure Row w 0 (errors_Wrap e "close output") =
    Returns r1 ->
  Output_Close Row w 1 = Returns r2 ->
  reporter_ReportSuccess Row w = Returns None ->
  Run_trace w =
  (EvApply <$> Input_C Row w)
    ++ [EvTeardown; EvClose;
        EvReportFailure (errors_Wrap e "close output");
        EvClose; EvReportSuccess; EvFinish].
Proof.
  intros Hclosed Happly Hteardown Hclose0 Hfail Hclose1 Hsuccess.
  unfold Run_trace, Run, AbortOnPanic, Run_body, Abort. unfold_exec.
  rewrite Run_drain_all_applied by assumption. cbn [app].
  rewrite Hteardown.
  count_calls. rewrite Hclose0. cbv beta iota.
  count_calls. rewrite Hfail.
  count_calls. rewrite Hclose1, Hsuccess.
  destruct (finishChan_receiver Row w); cbn [snd];
    rewrite <- !app_assoc; reflexivity.
Qed.

End TaskExecutor.

(** C1 fails on the code.  In the run [close_fails] the first
    [Output.Close()] returns an error: [ReportFailure] is issued with
    that error, and [ReportSuccess] is called after it, followed by the
    send on [finishChan].  In the run [close_and_report_fail], where
    the success report is refused as well, [ReportFailure] is issued
    twice. *)
Theorem close_error_then_ReportSuccess :
  Run_trace close_fails =
    [EvApply [tt; tt]; EvTeardown; EvClose;
     EvReportFailure (errors_Wrap closeErr "close output");
     EvClose; EvReportSuccess; EvFinish]
  /\ Run_trace close_and_report_fail =
    [EvApply [tt; tt]; EvTeardown; EvClose;
     EvReportFailure (errors_Wrap closeErr "close output");
     EvClose; EvReportSuccess;
     EvReportFailure
       (errors_Wrap (errors_New "etcd unavailable") "report successful task");
     EvClose].
Proof. split; vm_compute; reflexivity. Qed.

(** C9 fails on the code in its second half.  The run [close_fails]
    aborts, a failure being reported for the error of
    [Output.Close()], and [WaitForFinish] returns all the same. *)
Theorem aborted_run_signals_finish :
  aborted close_fails /\ WaitForFinish_returns close_fails.
Proof.
  unfold aborted, WaitForFinish_returns.
  replace (Run_trace close_fails) with
    [EvApply [tt; tt]; EvTeardown; EvClose;
     EvReportFailure (errors_Wrap closeErr "close output");
     EvClose; EvReportSuccess; @EvFinish unit]
    by (vm_compute; reflexivity).
  split.
  - exists (errors_Wrap closeErr "close output").
    rewrite !elem_of_cons. tauto.
  - rewrite !elem_of_cons. tauto.
Qed.

(** *** Further properties of a run *)

Section Scenarios.

Variable Row : Type.
Variable w : Collaborators Row.

Ltac unfold_exec :=
  cbv beta iota delta
    [mbind Exec_bind mret Exec_ret call block
     do_Apply do_Teardown do_Close do_ReportSuccess do_ReportFailure
     send_finishChan] in *.

Lemma calls_apply_applies (batches : list (list Row)) :
  calls Row (is_apply Row) (EvApply <$> batches) = length batches.
Proof.
  unfold calls. induction batches as [|rows batches IH]; simpl; [reflexivity|].
  f_equal. exact IH.
Qed.

Ltac count_calls :=
  repeat match goal with
    | |- context [calls ?R ?kind (?tr1 ++ ?tr2)] =>
        rewrite (calls_app R kind tr1 tr2)
    | |- context [calls ?R (is_apply ?R) (EvApply <$> ?batches)] =>
        rewrite (calls_apply_applies batches)
    | |- context [calls ?R ?kind (EvApply <$> ?batches)] =>
        rewrite (calls_applies R kind batches) by reflexivity
    | |- context [calls ?R ?kind [?ev]] =>
        let n := eval cbv in (calls R kind [ev]) in
        change (calls R kind [ev]) with n
    | |- context [calls ?R ?kind []] =>
        change (calls R kind []) with O
    end;
  rewrite ?Nat.add_0_r; cbn [Nat.add].

(** The batches that are applied without error are passed over. *)
Lemma Run_drain_prefix (before : list (list Row)) :
  forall (rest : list (list Row)) (tr : list (Event Row)),
    (forall i rows, (i < length before)%nat ->
       runner_Apply Row w (calls Row (is_apply Row) tr + i) rows = Returns None) ->
    Run_drain Row w (before ++ rest) tr =
    Run_drain Row w rest (tr ++ (EvApply <$> before)).
Proof.
  induction before as [|rows before IH]; intros rest tr Happly.
  - simpl. by rewrite app_nil_r.
  - cbn [app Run_drain]. unfold_exec.
    specialize (Happly O rows ltac:(simpl; lia)) as Hfirst.
    rewrite Nat.add_0_r in Hfirst. rewrite Hfirst.
    rewrite IH.
    + rewrite fmap_cons, <- app_assoc. reflexivity.
    + intros i rows' Hi. rewrite calls_app.
      change (calls Row (is_apply Row) [EvApply rows]) with 1%nat.
      rewrite <- Nat.add_assoc. apply Happly. simpl. lia.
Qed.

(** X22.  When the input is closed after the last batch and every call
    returns nil, the run applies every batch in order, tears down,
    closes the output once, reports success and comes to the send on
    [finishChan]; it reports no failure.  [Run] returns when somebody
    receives in [WaitForFinish], and stays at the send for ever when
    nobody does. *)
Theorem Run_success :
  Input_closed Row w = true ->
  (forall n rows, runner_Apply Row w n rows = Returns None) ->
  runner_Teardown Row w = Returns None ->
  Output_Close Row w 0 = Returns None ->
  reporter_ReportSuccess Row w = Returns None ->
  Run Row w [] =
  (if finishChan_receiver Row w then Returns tt else Blocks,
   (EvApply <$> Input_C Row w)
     ++ [EvTeardown; EvClose; EvReportSuccess; EvFinish]).
Proof.
  intros Hclosed Happly Hteardown Hclose Hsuccess.
  unfold Run, AbortOnPanic, Run_body, Abort. unfold_exec.
  rewrite (Run_drain_all_applied Row w) by assumption. cbn [app].
  rewrite Hteardown.
  count_calls. rewrite Hclose. cbv beta iota.
  rewrite Hsuccess.
  destruct (finishChan_receiver Row w);
    rewrite <- !app_assoc; reflexivity.
Qed.

(** X23.  When the task goes well and [ReportSuccess] returns an error,
    the run reports a failure for that error (wrapped as
    "report successful task") after the success report, closes the
    output a second time and does not send on [finishChan]. *)
Theorem Run_report_refused (e : error) (r1 r2 : option error) :
  Input_closed Row w = true ->
  (forall n rows, runner_Apply Row w n rows = Returns None) ->
  runner_Teardown Row w = Returns None ->
  Output_Close Row w 0 = Returns None ->
  reporter_ReportSuccess Row w = Returns (Some e) ->
  reporter_ReportFailure Row w 0 (errors_Wrap e "report successful task") =
    Returns r1 ->
  Output_Close Row w 1 = Returns r2 ->
  Run Row w [] =
  (Returns tt,
   (EvApply <$> Input_C Row w)
     ++ [EvTeardown; EvClose; EvReportSuccess;
         EvReportFailure (errors_Wrap e "report successful task"); EvClose]).
Proof.
  intros Hclosed Happly Hteardown Hclose Hsuccess Hfail Hclose1.
  unfold Run, AbortOnPanic, Run_body, Abort. unfold_exec.
  rewrite (Run_drain_all_applied Row w) by assumption. cbn [app].
  rewrite Hteardown.
  count_calls. rewrite Hclose. cbv beta iota.
  rewrite Hsuccess.
  count_calls. rewrite Hfail.
  count_calls. rewrite Hclose1.
  rewrite <- !app_assoc. reflexivity.
Qed.

(** X24.  When [Teardown] returns an error, the run reports it, wrapped
    as "teardown stage", and closes the output; the output is not closed
    before, and success is not reported. *)
Theorem Run_teardown_error (e : error) (r1 r2 : option error) :
  Input_closed Row w = true ->
  (forall n rows, runner_Apply Row w n rows = Returns None) ->
  runner_Teardown Row w = Returns (Some e) ->
  reporter_ReportFailure Row w 0 (errors_Wrap e "teardown stage") = Returns r1 ->
  Output_Close Row w 0 = Returns r2 ->
  Run Row w [] =
  (Returns tt,
   (EvApply <$> Input_C Row w)
     ++ [EvTeardown; EvReportFailure (errors_Wrap e "teardown stage"); EvClose]).
Proof.
  intros Hclosed Happly Hteardown Hfail Hclose.
  unfold Run, AbortOnPanic, Run_body, Abort. unfold_exec.
  rewrite (Run_drain_all_applied Row w) by assumption. cbn [app].
  rewrite Hteardown.
  count_calls. rewrite Hfail.
  count_calls. rewrite Hclose.
  rewrite <- !app_assoc. reflexivity.
Qed.

(** X25.  When [Apply] returns an error on a batch, after the batches
    before it were applied without error, the run reports that error as
    it is, closes the output and returns: no later batch is applied,
    [Teardown] is not called and success is not reported. *)
Theorem Run_apply_error (before after : list (list Row)) (rows : list Row)
    (e : error) (r1 r2 : option error) :
  Input_C Row w = before ++ rows :: after ->
  (forall i rows', (i < length before)%nat ->
     runner_Apply Row w i rows' = Returns None) ->
  runner_Apply Row w (length before) rows = Returns (Some e) ->
  reporter_ReportFailure Row w 0 e = Returns r1 ->
  Output_Close Row w 0 = Returns r2 ->
  Run Row w [] =
  (Returns tt,
   (EvApply <$> before) ++ [EvApply rows; EvReportFailure e; EvClose]).
Proof.
  intros Hinput Hbefore Hrows Hfail Hclose.
  unfold Run, AbortOnPanic, Run_body. unfold_exec.
  rewrite Hinput, Run_drain_prefix by (intros; by apply Hbefore).
  cbn [app Run_drain]. unfold Abort. unfold_exec.
  count_calls. rewrite Hrows.
  count_calls. rewrite Hfail.
  count_calls. rewrite Hclose.
  rewrite <- !app_assoc. reflexivity.
Qed.

(** X26.  When [Apply] panics on a batch, the run returns normally:
    the panic is recovered, reported as a failure and the output is
    closed; no later batch is applied and success is not reported. *)
Theorem Run_apply_panic (before after : list (list Row)) (rows : list Row)
    (v : error) (r1 r2 : option error) :
  Input_C Row w = before ++ rows :: after ->
  (forall i rows', (i < length before)%nat ->
     runner_Apply Row w i rows' = Returns None) ->
  runner_Apply Row w (length before) rows = Panics v ->
  reporter_ReportFailure Row w 0 (WrapRecover v) = Returns r1 ->
  Output_Close Row w 0 = Returns r2 ->
  Run Row w [] =
  (Returns tt,
   (EvApply <$> before)
     ++ [EvApply rows; EvReportFailure (WrapRecover v); EvClose]).
Proof.
  intros Hinput Hbefore Hrows Hfail Hclose.
  unfold Run, AbortOnPanic, Run_body. unfold_exec.
  rewrite Hinput, Run_drain_prefix by (intros; by apply Hbefore).
  cbn [app Run_drain]. unfold Abort. unfold_exec.
  count_calls. rewrite Hrows.
  count_calls. rewrite Hfail.
  count_calls. rewrite Hclose.
  rewrite <- !app_assoc. reflexivity.
Qed.

(** X27.  When the input channel is never closed and every [Apply]
    returns nil, the run applies every batch and then waits for ever:
    it tears nothing down and reports nothing. *)
Theorem Run_input_open :
  Input_closed Row w = false ->
  (forall n rows, runner_Apply Row w n rows = Returns None) ->
  Run Row w [] = (Blocks, EvApply <$> Input_C Row w).
Proof.
  intros Hopen Happly.
  unfold Run, AbortOnPanic, Run_body. unfold_exec.
  rewrite <- (app_nil_r (Input_C Row w)) at 1.
  rewrite Run_drain_prefix by (intros; apply Happly).
  cbn [app Run_drain]. unfold_exec. by rewrite Hopen.
Qed.

(** *** What every run does *)

Lemma Abort_contained (err : error) (tr : list (Event Row)) :
  (forall n e v, reporter_ReportFailure Row w n e <> Panics v) ->
  (forall n v, Output_Close Row w n <> Panics v) ->
  forall v, (Abort Row w err tr).1 <> Panics v.
Proof.
  intros Hfail Hclose v. unfold Abort. unfold_exec.
  destruct (reporter_ReportFailure Row w _ err) as [r1|v1|] eqn:Hr;
    cbn; try discriminate.
  - destruct (Output_Close Row w _) as [r2|v2|] eqn:Hc; cbn; try discriminate.
    by apply Hclose in Hc.
  - by apply Hfail in Hr.
Qed.

(** X28.  No panic leaves [Run] as long as [ReportFailure] and
    [Output.Close()] do not panic themselves: a panic of [Apply], of
    [Teardown] or of [ReportSuccess] is recovered. *)
Theorem Run_contains_panics :
  (forall n e v, reporter_ReportFailure Row w n e <> Panics v) ->
  (forall n v, Output_Close Row w n <> Panics v) ->
  (Run Row w []).1 = Returns tt \/ (Run Row w []).1 = Blocks.
Proof.
  intros Hfail Hclose. unfold Run, AbortOnPanic.
  destruct (Run_body Row w []) as [[[]|v'|] tr]; cbn [fst]; auto.
  pose proof (Abort_contained (WrapRecover v') tr Hfail Hclose) as Hno.
  destruct (Abort Row w (WrapRecover v') tr) as [[[]|v|] tr']; cbn [fst] in *;
    auto.
  by destruct (Hno v).
Qed.

Lemma Run_drain_shape (batches : list (list Row)) :
  forall tr res tr',
    Run_drain Row w batches tr = (res, tr') ->
    exists evs,
      tr' = tr ++ evs
      /\ (EvTeardown ∉ evs)
      /\ match res with
         | Returns true => evs = EvApply <$> batches /\ Input_closed Row w = true
         | Returns false => exists e, EvReportFailure e ∈ evs
         | _ => True
         end.
Proof.
  induction batches as [|rows batches IH]; intros tr res tr';
    simpl; unfold_exec.
  - destruct (Input_closed Row w); intros [= <- <-];
      exists []; rewrite app_nil_r; repeat split; apply not_elem_of_nil.
  - destruct (runner_Apply Row w _ rows) as [[e|]|v|] eqn:Happly.
    + destruct (Abort Row w e (tr ++ [EvApply rows])) as [ares atr] eqn:Hab.
      apply Abort_events in Hab as (cl & -> & Hcl).
      intros Hres. exists (EvApply rows :: EvReportFailure e :: cl).
      split; [|split].
      * destruct ares; injection Hres as <- <-;
          by rewrite <- app_assoc.
      * rewrite !elem_of_cons. intros [?|[?|Hin]]; try discriminate.
        eapply Forall_forall in Hcl; [|exact Hin]. discriminate.
      * destruct ares as [[]|?|]; injection Hres as <- <-; [|done..].
        exists e. rewrite !elem_of_cons. auto.
    + intros Hrun. apply IH in Hrun as (evs & -> & Hno & Hres).
      exists (EvApply rows :: evs). rewrite <- app_assoc.
      split; [reflexivity|]. split.
      * rewrite elem_of_cons. intros [?|?]; [discriminate|done].
      * destruct res as [[|]|?|]; try done.
        -- destruct Hres as [-> ?]. by split.
        -- destruct Hres as [e He]. exists e. by right.
    + intros [= <- <-]. exists [EvApply rows]. repeat split.
      rewrite elem_of_cons, elem_of_nil. intros [?|[]]. discriminate.
    + intros [= <- <-]. exists [EvApply rows]. repeat split.
      rewrite elem_of_cons, elem_of_nil. intros [?|[]]. discriminate.
Qed.

Ltac abort_case :=
  match goal with
  | |- context [Abort ?R ?c ?e ?tr] =>
      let res := fresh "ares" in
      let tr' := fresh "atr" in
      let Hab := fresh "Habort" in
      destruct (Abort R c e tr) as [res tr'] eqn:Hab;
      apply Abort_events in Hab as (? & -> & ?);
      destruct res as [[]|?|]
  end.

Ltac call_case :=
  match goal with
  | |- context [match ?x with _ => _ end] =>
      lazymatch x with
      | context [match _ with _ => _ end] => fail
      | context [Abort] => fail
      | _ => destruct x as [[?|]|?|] eqn:?
      end
  end.

Ltac run_cases := repeat ((abort_case || call_case); cbv beta iota).

(** Every way a run can go, with what the drain loop did first. *)
Ltac run_shapes :=
  let res := fresh "res" in
  let tr := fresh "tr" in
  let Hrun := fresh "Hrun" in
  destruct (Run Row w []) as [res tr] eqn:Hrun;
  cbn [fst snd];
  revert Hrun; unfold Run, AbortOnPanic, Run_body;
  unfold_exec;
  destruct (finishChan_receiver Row w);
  let Hdrain := fresh "Hdrain" in
  let dres := fresh "dres" in
  destruct (Run_drain Row w (Input_C Row w) []) as [dres ?] eqn:Hdrain;
  apply Run_drain_shape in Hdrain as (evs & -> & Hno & Hdres);
  cbn [app];
  destruct dres as [[|]|?|]; run_cases;
  intros [= <- <-].

(** X29.  A run that comes to an end, by returning or by a panic, has
    called the reporter: [ReportSuccess] or [ReportFailure] is among its
    events. *)
Theorem Run_reports_unless_blocked :
  (Run Row w []).1 <> Blocks ->
  EvReportSuccess ∈ (Run Row w []).2
  \/ exists e, EvReportFailure e ∈ (Run Row w []).2.
Proof.
  run_shapes; intros Hnb; try congruence;
    try match goal with
        | H : exists e, EvReportFailure e ∈ _ |- _ => destruct H as [? ?]
        end;
    first
      [ left; rewrite ?elem_of_app, ?elem_of_cons; by eauto 10
      | right; eexists; rewrite ?elem_of_app, ?elem_of_cons; by eauto 10 ].
Qed.

Lemma closes_not_teardown (evs : list (Event Row)) :
  Forall (fun ev => ev = EvClose) evs ->
  Forall (fun ev => ev <> EvTeardown /\ is_apply Row ev = false) evs.
Proof.
  intros Hevs. eapply Forall_impl; [exact Hevs|].
  intros ev ->. split; [discriminate|reflexivity].
Qed.

(** X30.  [Teardown] is called at most once, and only when the input
    was closed and every batch applied: a run that tears down starts
    with the [Apply] of every batch, in order, then [Teardown], and
    applies and tears down nothing after. *)
Theorem Teardown_once_after_applies :
  EvTeardown ∈ (Run Row w []).2 ->
  Input_closed Row w = true
  /\ exists rest,
       (Run Row w []).2 = (EvApply <$> Input_C Row w) ++ EvTeardown :: rest
       /\ Forall (fun ev => ev <> EvTeardown /\ is_apply Row ev = false) rest.
Proof.
  run_shapes; intros Hin.
  all: try (exfalso;
            rewrite ?elem_of_app, ?elem_of_cons, ?elem_of_nil in Hin;
            repeat match goal with
              | H : Forall (fun ev => ev = EvClose) _ |- _ =>
                  apply closes_not_teardown in H
              end;
            repeat match goal with
              | H : Forall _ ?l |- _ =>
                  lazymatch type of Hin with
                  | context [EvTeardown ∈ l] =>
                      rewrite Forall_forall in H;
                      specialize (H EvTeardown)
                  end
              end;
            intuition (try discriminate; try congruence); fail).
  all: destruct Hdres as [-> Hclosed]; split; [exact Hclosed|];
    rewrite <- ?app_assoc; cbn [app];
    eexists; (split; [reflexivity|]);
    repeat first
      [ apply Forall_nil_2
      | apply Forall_cons_2; [split; [discriminate|reflexivity]|]
      | apply Forall_app_2
      | by apply closes_not_teardown ].
Qed.

End Scenarios.

Lemma Run_close_fails :
  Run unit close_fails [] =
  (Returns tt,
   [EvApply [tt; tt]; EvTeardown; EvClose;
    EvReportFailure (errors_Wrap closeErr "close output");
    EvClose; EvReportSuccess; EvFinish]).
Proof. vm_compute. reflexivity. Qed.

Lemma abort_and_finish_needs_close_error_witness :
  exists n e, Output_Close unit close_fails n = Returns (Some e).
Proof.
  apply (abort_and_finish_needs_close_error unit close_fails).
  - exists (errors_Wrap closeErr "close output").
    unfold Run_trace. rewrite Run_close_fails. cbn [snd].
    rewrite !elem_of_cons. tauto.
  - unfold WaitForFinish_returns, Run_trace. rewrite Run_close_fails. cbn [snd].
    rewrite !elem_of_cons. tauto.
Defined.

Lemma close_error_falls_through_witness :
  Run_trace close_fails =
  (EvApply <$> Input_C unit close_fails)
    ++ [EvTeardown; EvClose;
        EvReportFailure (errors_Wrap closeErr "close output");
        EvClose; EvReportSuccess; EvFinish].
Proof.
  apply (close_error_falls_through unit close_fails closeErr
           None (Some closeErr)); intros; reflexivity.
Defined.

Lemma Run_success_witness :
  Run unit all_well [] =
  (if finishChan_receiver unit all_well then Returns tt else Blocks,
   (EvApply <$> Input_C unit all_well)
     ++ [EvTeardown; EvClose; EvReportSuccess; EvFinish]).
Proof. apply (Run_success unit all_well); intros; reflexivity. Defined.

(** The same task with and without a [WaitForFinish]: the calls are the
    same, and [Run] returns only in the first. *)
Example Run_waited_or_not :
  Run unit all_well [] =
    (Returns tt,
     [EvApply [tt]; EvApply [tt; tt]; EvApply [tt];
      EvTeardown; EvClose; EvReportSuccess; EvFinish])
  /\ Run unit nobody_waits [] =
    (Blocks,
     [EvApply [tt]; EvApply [tt; tt]; EvApply [tt];
      EvTeardown; EvClose; EvReportSuccess; EvFinish]).
Proof. split; vm_compute; reflexivity. Qed.

Lemma Run_report_refused_witness :
  Run unit report_refused [] =
  (Returns tt,
   (EvApply <$> Input_C unit report_refused)
     ++ [EvTeardown; EvClose; EvReportSuccess;
         EvReportFailure
           (errors_Wrap (errors_New "etcd unavailable") "report successful task");
         EvClose]).
Proof.
  apply (Run_report_refused unit report_refused
           (errors_New "etcd unavailable") None None); intros; reflexivity.
Defined.

Lemma Run_teardown_error_witness :
  Run unit teardown_fails [] =
  (Returns tt,
   (EvApply <$> Input_C unit teardown_fails)
     ++ [EvTeardown;
         EvReportFailure (errors_Wrap (errors_New "flush state") "teardown stage");
         EvClose]).
Proof.
  apply (Run_teardown_error unit teardown_fails
           (errors_New "flush state") None None); intros; reflexivity.
Defined.

Lemma Run_apply_error_witness :
  Run unit apply_fails [] =
  (Returns tt,
   (EvApply <$> [[tt]])
     ++ [EvApply [tt; tt]; EvReportFailure (errors_New "bad row"); EvClose]).
Proof.
  apply (Run_apply_error unit apply_fails [[tt]] [[tt]] [tt; tt]
           (errors_New "bad row") None None); try reflexivity.
  intros i rows' Hi. simpl in Hi. by replace i with O by lia.
Defined.

Lemma Run_apply_panic_witness :
  Run unit apply_panics [] =
  (Returns tt,
   (EvApply <$> [[tt]])
     ++ [EvApply [tt; tt];
         EvReportFailure (WrapRecover (runtime_Error "index out of range"));
         EvClose]).
Proof.
  apply (Run_apply_panic unit apply_panics [[tt]] [[tt]] [tt; tt]
           (runtime_Error "index out of range") None None); try reflexivity.
  intros i rows' Hi. simpl in Hi. by replace i with O by lia.
Defined.

Lemma Run_input_open_witness :
  Run unit input_open [] = (Blocks, EvApply <$> Input_C unit input_open).
Proof. apply (Run_input_open unit input_open); intros; reflexivity. Defined.

Lemma Run_contains_panics_witness :
  (Run unit apply_panics []).1 = Returns tt
  \/ (Run unit apply_panics []).1 = Blocks.
Proof.
  apply (Run_contains_panics unit apply_panics); intros; discriminate.
Defined.

Lemma Run_reports_unless_blocked_witness :
  EvReportSuccess ∈ (Run unit teardown_fails []).2
  \/ exists e, EvReportFailure e ∈ (Run unit teardown_fails []).2.
Proof.
  apply (Run_reports_unless_blocked unit teardown_fails).
  vm_compute. discriminate.
Defined.

Lemma Teardown_once_after_applies_witness :
  Input_closed unit close_fails = true
  /\ exists rest,
       (Run unit close_fails []).2 =
         (EvApply <$> Input_C unit close_fails) ++ EvTeardown :: rest
       /\ Forall (fun ev => ev <> EvTeardown /\ is_apply unit ev = false) rest.
Proof.
  apply (Teardown_once_after_applies unit close_fails).
  rewrite Run_close_fails. cbn [snd]. rewrite !elem_of_cons. tauto.
Defined.


End worker_proofs.
